(** * Weighted round-robin TCP load balancer (pkg/tcp/wrr_load_balancer.go)

    A shallow embedding of [WRRLoadBalancer]: the pool of weighted servers,
    the rotating selection state ([index], [currentWeight]), the selection
    loop of [next], the dispatch [ServeTCP] and the status aggregator
    [SetStatus], followed by the properties of the selection algorithm.

    Conventions of the embedding.
    - Go's [int] is the 64-bit two's-complement integer of the common
      targets: a value is a [Z] in [[int_min, int_max]] and every addition and
      subtraction of the source is followed by [wrap].  Go's [%] truncates
      towards zero, which is [Z.rem].
    - A loop that the source leaves unbounded ([for { ... }]) takes a fuel
      argument that counts its iterations; running out of it is [Timeout].
    - A run-time panic of Go (index out of range, assignment to an entry of a
      nil map, nil dereference) is the outcome [Panic].
    - The mutex only orders concurrent callers; the embedding is sequential
      and leaves it out.
    - Handlers, connections, updater callbacks and logging contexts are
      opaque; what the balancer does to them is recorded as a trace of
      [event]s. *)

From Stdlib Require Import ZArith Lia Znumtheory.
From stdpp Require Import base option numbers list gmap strings.

Local Open Scope Z_scope.

(** ** Machine integers *)

Definition int_min : Z := - 2 ^ 63.
Definition int_max : Z := 2 ^ 63 - 1.

(** Two's-complement wrap-around of a 64-bit signed result. *)
Definition wrap (z : Z) : Z := (z + 2 ^ 63) mod 2 ^ 64 - 2 ^ 63.

Definition is_int (z : Z) : Prop := int_min <= z <= int_max.

(** ** [gcd]: the Euclid loop of the source, on signed operands

    [for b != 0 { a, b = b, a%b }; return a].  The fuel bounds the number of
    tests of the loop condition. *)
Fixpoint gcd_loop (fuel : nat) (a b : Z) : option Z :=
  match fuel with
  | O => None
  | S fuel' => if b =? 0 then Some a else gcd_loop fuel' b (Z.rem a b)
  end.

(** The magnitude of [b] at least halves every two iterations, so
    [2 * log2 |b| + 3] tests are enough (see [gcd_loop_terminates]). *)
Definition gcd_fuel (b : Z) : nat := S (2 * S (Z.to_nat (Z.log2 (Z.abs b)))).

Definition gcd (a b : Z) : Z := default 0 (gcd_loop (gcd_fuel b) a b).

(** ** The pool *)

(** Heap addresses of the [atomic.Bool] cells the status map points to. *)
Abbreviation loc := positive.

Inductive outcome (A : Type) : Type :=
  | Done (a : A)
  | Panic
  | Timeout.
Arguments Done {A} a.
Arguments Panic {A}.
Arguments Timeout {A}.

Definition EmptyPoolError : string := "no servers in the pool".
Definition AllZeroWeightError : string := "all servers have 0 weight".

Section Balancer.
Context {Handler Conn Updater Ctx : Type}.

Record server : Type := Server { handler : Handler; weight : Z }.

Record WRRLoadBalancer : Type := Balancer {
  servers : list server;
  currentWeight : Z;
  index : Z;
  (* [None] is Go's nil map: reads find nothing, a write panics. *)
  status : option (gmap string loc);
  updaters : list Updater
}.

Definition set_index (b : WRRLoadBalancer) (i : Z) : WRRLoadBalancer :=
  Balancer (servers b) (currentWeight b) i (status b) (updaters b).

Definition set_currentWeight (b : WRRLoadBalancer) (w : Z) : WRRLoadBalancer :=
  Balancer (servers b) w (index b) (status b) (updaters b).

Definition set_servers (b : WRRLoadBalancer) (l : list server) : WRRLoadBalancer :=
  Balancer l (currentWeight b) (index b) (status b) (updaters b).

Definition set_status (b : WRRLoadBalancer) (m : gmap string loc) : WRRLoadBalancer :=
  Balancer (servers b) (currentWeight b) (index b) (Some m) (updaters b).

(** [NewWRRLoadBalancer]: every field is Go's zero value but [index]. *)
Definition NewWRRLoadBalancer : WRRLoadBalancer :=
  Balancer [] 0 (-1) None [].

(** [AddWeightServer]: a nil weight pointer stands for weight 1. *)
Definition AddWeightServer (b : WRRLoadBalancer) (serverHandler : Handler)
    (weight : option Z) : WRRLoadBalancer :=
  let w := match weight with Some w' => w' | None => 1 end in
  set_servers b (servers b ++ [Server serverHandler w]).

Definition AddServer (b : WRRLoadBalancer) (serverHandler : Handler) : WRRLoadBalancer :=
  AddWeightServer b serverHandler (Some 1).

(** [len(b.servers)] as an [int]. *)
Definition len (l : list server) : Z := Z.of_nat (length l).

(** [b.servers[i]]: out of range (negative included) panics. *)
Definition server_at (l : list server) (i : Z) : option server :=
  if i <? 0 then None else l !! Z.to_nat i.

Definition maxWeight_of (l : list server) : Z :=
  fold_left (fun max s => if max <? weight s then weight s else max) l (-1).

Definition maxWeight (b : WRRLoadBalancer) : Z := maxWeight_of (servers b).

Definition weightGcd_of (l : list server) : Z :=
  fold_left (fun divisor s =>
               if divisor =? -1 then weight s else gcd divisor (weight s)) l (-1).

Definition weightGcd (b : WRRLoadBalancer) : Z := weightGcd_of (servers b).

(** One turn of the selection loop up to the test of the server's weight:
    the index moves on and, when it comes back to 0, the current weight
    steps down by the gcd and is reset to the maximum once it is not
    positive.  [next] enters the loop on a non-empty pool only, so the
    remainder never divides by zero. *)
Definition advance (max gcd : Z) (b : WRRLoadBalancer) : WRRLoadBalancer :=
  let b1 := set_index b (Z.rem (wrap (index b + 1)) (len (servers b))) in
  if index b1 =? 0 then
    let b2 := set_currentWeight b1 (wrap (currentWeight b1 - gcd)) in
    if currentWeight b2 <=? 0 then set_currentWeight b2 max else b2
  else b1.

(** The [for { ... }] of [next]; [fuel] is the number of turns allowed. *)
Fixpoint next_loop (fuel : nat) (max gcd : Z) (b : WRRLoadBalancer)
    : outcome (server * WRRLoadBalancer) :=
  match fuel with
  | O => Timeout
  | S fuel' =>
      let b' := advance max gcd b in
      match server_at (servers b') (index b') with
      | None => Panic
      | Some srv =>
          if currentWeight b' <=? weight srv then Done (srv, b')
          else next_loop fuel' max gcd b'
      end
  end.

(** [next]: the selected server or the error, with the balancer after the
    call. *)
Definition next (fuel : nat) (b : WRRLoadBalancer)
    : outcome ((server + string) * WRRLoadBalancer) :=
  if len (servers b) =? 0 then Done (inr EmptyPoolError, b)
  else
    let max := maxWeight b in
    if max =? 0 then Done (inr AllZeroWeightError, b)
    else
      let gcd := weightGcd b in
      match next_loop fuel max gcd b with
      | Done (srv, b') => Done (inl srv, b')
      | Panic => Panic
      | Timeout => Timeout
      end.

(** [n] successive calls of [next], each allowed [fuel] turns: for every
    call the index it stopped at with the server it returned, in order,
    and the balancer after the last call.  A call that fails with an error
    ends the run with [None] in place of the list. *)
Fixpoint selections (fuel : nat) (n : nat) (b : WRRLoadBalancer)
    : outcome (option (list (Z * server)) * WRRLoadBalancer) :=
  match n with
  | O => Done (Some [], b)
  | S n' =>
      match next fuel b with
      | Done (inl srv, b') =>
          match selections fuel n' b' with
          | Done (Some l, b'') => Done (Some ((index b', srv) :: l), b'')
          | r => r
          end
      | Done (inr _, b') => Done (None, b')
      | Panic => Panic
      | Timeout => Timeout
      end
  end.

(** ** Dispatch and status propagation *)

Inductive event : Type :=
  | LogError (err msg : string)
  | LogDebug (ctx : Ctx) (msg : string)
  | Close (conn : Conn)
  | Forward (h : Handler) (conn : Conn)
  | Update (fn : Updater) (up : bool).

(** [ServeTCP]: the events it causes and the balancer after the call. *)
Definition ServeTCP (fuel : nat) (b : WRRLoadBalancer) (conn : Conn)
    : outcome (list event * WRRLoadBalancer) :=
  match next fuel b with
  | Done (inr err, b') =>
      Done ([LogError err "Error during load balancing"; Close conn], b')
  | Done (inl srv, b') => Done ([Forward (handler srv) conn], b')
  | Panic => Panic
  | Timeout => Timeout
  end.

(** [SetStatus], over the balancer and the heap of [atomic.Bool] cells.
    [CompareAndSwap(!up, up)] succeeds when the cell holds [!up]. *)
Definition SetStatus (ctx : Ctx) (childName : string) (up : bool)
    (b : WRRLoadBalancer) (cells : gmap loc bool)
    : outcome (list event * WRRLoadBalancer * gmap loc bool) :=
  let statusString := if up then "UP" else "DOWN" in
  let setting :=
    LogDebug ctx ("Setting status of " +:+ childName +:+ " to " +:+ statusString) in
  match status b ≫= (fun m => m !! childName) with
  | None =>
      let s := fresh (dom cells) in
      let cells' := <[s := up]> cells in
      match status b with
      | None => Panic
      | Some m => Done ([setting], set_status b (<[childName := s]> m), cells')
      end
  | Some currentStatus =>
      match cells !! currentStatus with
      | None => Panic
      | Some stored =>
          if bool_decide (stored = negb up) then
            Done (setting
                    :: LogDebug ctx ("Propagating new " +:+ statusString +:+ " status")
                    :: map (fun fn => Update fn up) (updaters b),
                  b, <[currentStatus := up]> cells)
          else
            Done ([setting;
                   LogDebug ctx ("Still " +:+ statusString +:+ ", no need to propagate")],
                  b, cells)
      end
  end.

(** The updater calls of a trace. *)
Definition updates (tr : list event) : list (Updater * bool) :=
  omap (fun e => match e with Update fn up => Some (fn, up) | _ => None end) tr.

Definition forwards (tr : list event) : list (Handler * Conn) :=
  omap (fun e => match e with Forward h c => Some (h, c) | _ => None end) tr.

Definition closes (tr : list event) : list Conn :=
  omap (fun e => match e with Close c => Some c | _ => None end) tr.

Definition error_logs (tr : list event) : list string :=
  omap (fun e => match e with LogError err _ => Some err | _ => None end) tr.

(** ** Balancers a program can hold

    A balancer starts at [NewWRRLoadBalancer]; servers are appended, [next]
    is called (by [ServeTCP]), and code of the package outside this file may
    fill the [status] and [updaters] fields. *)
Inductive reachable : WRRLoadBalancer -> Prop :=
  | reach_new : reachable NewWRRLoadBalancer
  | reach_add b h w :
      reachable b -> reachable (AddWeightServer b h w)
  | reach_next fuel b r b' :
      reachable b -> next fuel b = Done (r, b') -> reachable b'
  | reach_fields b st ups :
      reachable b ->
      reachable (Balancer (servers b) (currentWeight b) (index b) st ups).

(** A pool a Go program can hold: weights are [int]s and so is the length. *)
Definition representable (l : list server) : Prop :=
  Forall (fun s => is_int (weight s)) l /\ len l <= int_max.

Definition nonneg_pool (l : list server) : Prop :=
  Forall (fun s => 0 <= weight s) l.

(** The rotation state between two calls: nothing selected yet, or a
    position of the pool with a positive current weight that is at most
    the maximum. *)
Definition rotation_ok (b : WRRLoadBalancer) : Prop :=
  (index b = -1 /\ currentWeight b = 0)
  \/ (0 <= index b < len (servers b) /\ 0 < currentWeight b <= maxWeight b).

(** The state in which a cycle of selections over the pool [l] starts and
    ends: nothing selected yet, or the last position with the current
    weight down at the gcd. *)
Definition cycle_start (l : list server) (b : WRRLoadBalancer) : Prop :=
  servers b = l
  /\ ((index b = -1 /\ currentWeight b = 0)
      \/ (index b = len l - 1 /\ currentWeight b = weightGcd_of l)).

(** ** Vocabulary of the statements *)

(** The greatest common divisor of the weights, as arithmetic has it. *)
Definition gcd_of_weights (l : list server) : Z :=
  foldr (fun s acc => Z.gcd (weight s) acc) 0 l.

Definition total_weight (l : list server) : Z :=
  foldr (fun s acc => weight s + acc) 0 l.

(** How many calls of a run stopped at index [i]. *)
Definition times_selected (i : Z) (sel : list (Z * server)) : Z :=
  Z.of_nat (length (filter (fun p => p.1 = i) sel)).

(** The indices of a run, without the balancer. *)
Definition picked (r : outcome (option (list (Z * server)) * WRRLoadBalancer))
    : outcome (option (list Z)) :=
  match r with
  | Done (o, _) => Done ((fun l => l.*1) <$> o)
  | Panic => Panic
  | Timeout => Timeout
  end.

(** The same pool with every weight multiplied by [k]. *)
Definition scale (k : Z) (l : list server) : list server :=
  (fun s => Server (handler s) (k * weight s)) <$> l.

(** ** The schedule behind the loop

    The turns of the loop, cut loose from the calls of [next] they belong
    to: [after k] is the balancer [k] turns later and [hits k] lists the
    turns among them at which the loop returns. *)
Fixpoint after (max gcd : Z) (k : nat) (b : WRRLoadBalancer) : WRRLoadBalancer :=
  match k with
  | O => b
  | S k' => after max gcd k' (advance max gcd b)
  end.

Definition hit (b : WRRLoadBalancer) : option server :=
  match server_at (servers b) (index b) with
  | Some srv => if currentWeight b <=? weight srv then Some srv else None
  | None => None
  end.

Fixpoint hits (max gcd : Z) (k : nat) (b : WRRLoadBalancer) : list (Z * server) :=
  match k with
  | O => []
  | S k' =>
      let b' := advance max gcd b in
      match hit b' with
      | Some srv => (index b', srv) :: hits max gcd k' b'
      | None => hits max gcd k' b'
      end
  end.

(** One pass over the servers from position [i] on with the current weight
    at [c], and [q] passes with the current weight stepping down from [c]. *)
Fixpoint scan (c : Z) (i : Z) (l : list server) : list (Z * server) :=
  match l with
  | [] => []
  | s :: l' =>
      if c <=? weight s then (i, s) :: scan c (i + 1) l' else scan c (i + 1) l'
  end.

Fixpoint passes (gcd : Z) (l : list server) (c : Z) (q : nat) : list (Z * server) :=
  match q with
  | O => []
  | S q' => scan c 0 l ++ passes gcd l (c - gcd) q'
  end.
End Balancer.

Arguments server : clear implicits.
Arguments WRRLoadBalancer : clear implicits.
Arguments event : clear implicits.


Arguments reachable {Handler Updater} b.

(** ** Pools used in the examples *)

Definition pool (ws : list (string * Z)) : WRRLoadBalancer string string :=
  fold_left (fun b hw => AddWeightServer b hw.1 (Some hw.2)) ws NewWRRLoadBalancer.

(** A balancer over the servers [l] in the rotation state [cw], [idx], with
    no status map and no updater. *)
Definition state (l : list (server string)) (cw idx : Z)
    : WRRLoadBalancer string string :=
  Balancer l cw idx None [].

(** ** Proof steps *)

(** Case analysis on every comparison of integers in sight. *)
Ltac cases_Z :=
  repeat match goal with
    | |- context [?a <? ?b] => destruct (Z.ltb_spec a b)
    | |- context [?a <=? ?b] => destruct (Z.leb_spec a b)
    | |- context [?a =? ?b] => destruct (Z.eqb_spec a b)
    | H : context [?a <? ?b] |- _ => revert H; destruct (Z.ltb_spec a b); intros H
    | H : context [?a <=? ?b] |- _ => revert H; destruct (Z.leb_spec a b); intros H
    | H : context [?a =? ?b] |- _ => revert H; destruct (Z.eqb_spec a b); intros H
    end.

(** Side conditions on a pool that is written out. *)
Ltac solve_representable :=
  split;
  [ repeat constructor; unfold is_int, int_min, int_max; simpl; lia
  | unfold len, int_max; simpl; lia ].

Ltac solve_nonneg := unfold nonneg_pool; repeat constructor; simpl; lia.

(** ** The Euclid loop *)

Lemma gcd_loop_terminates (n : nat) (a b : Z) :
  Z.abs b < 2 ^ Z.of_nat n -> is_Some (gcd_loop (S (2 * n)) a b).
Proof.
  revert a b. induction n as [|n IH]; intros a b Hb.
  - change (2 ^ Z.of_nat 0) with 1 in Hb.
    assert (b = 0) as -> by lia. simpl. eauto.
  - replace (S (2 * S n)) with (S (S (S (2 * n)))) by lia.
    cbn [gcd_loop]. destruct (Z.eqb_spec b 0) as [|Hb0]; [eauto|].
    destruct (Z.eqb_spec (Z.rem a b) 0) as [|Hr0]; [eauto|].
    apply IH.
    pose proof (Z.rem_bound_abs a b Hb0) as Hr.
    pose proof (Z.rem_bound_abs b (Z.rem a b) Hr0) as Hr2.
    rewrite <- Z.rem_abs in Hr2 |- * by done.
    rewrite Z.rem_mod_nonneg in Hr2 |- * by lia.
    set (x := Z.abs b) in *. set (y := Z.abs (Z.rem a b)) in *.
    pose proof (Z.div_mod x y ltac:(lia)) as Hdm.
    pose proof (Z.mod_pos_bound x y ltac:(lia)) as Hm.
    assert (1 <= x `div` y) by (apply Z.div_le_lower_bound; lia).
    rewrite Nat2Z.inj_succ, Z.pow_succ_r in Hb by lia.
    nia.
Qed.

Lemma gcd_fuel_enough (a b : Z) : is_Some (gcd_loop (gcd_fuel b) a b).
Proof.
  unfold gcd_fuel. apply gcd_loop_terminates.
  destruct (Z.eq_dec b 0) as [->|Hb].
  - simpl. lia.
  - pose proof (Z.log2_spec (Z.abs b) ltac:(lia)) as [_ H].
    rewrite Nat2Z.inj_succ, Z2Nat.id by apply Z.log2_nonneg. exact H.
Qed.

Lemma gcd_loop_nonneg (fuel : nat) (a b r : Z) :
  0 <= a -> 0 <= b -> gcd_loop fuel a b = Some r -> r = Z.gcd a b.
Proof.
  revert a b. induction fuel as [|fuel IH]; intros a b Ha Hb; [done|].
  simpl. destruct (Z.eqb_spec b 0) as [->|Hb0].
  - intros [= <-]. rewrite Z.gcd_0_r. lia.
  - intros Hr. apply IH in Hr.
    + rewrite Hr, Z.rem_mod_nonneg by lia.
      rewrite Z.gcd_mod_r. apply Z.gcd_comm.
    + lia.
    + apply Z.rem_nonneg; lia.
Qed.

(** On non-negative operands the loop computes the greatest common divisor. *)
Lemma gcd_nonneg (a b : Z) : 0 <= a -> 0 <= b -> gcd a b = Z.gcd a b.
Proof.
  intros Ha Hb. unfold gcd.
  destruct (gcd_fuel_enough a b) as [r Hr]. rewrite Hr. simpl.
  by eapply gcd_loop_nonneg.
Qed.

(** ** Machine arithmetic *)

Lemma wrap_id (z : Z) : is_int z -> wrap z = z.
Proof.
  unfold is_int, int_min, int_max, wrap. intros H.
  rewrite Z.mod_small; lia.
Qed.

Lemma wrap_is_int (z : Z) : is_int (wrap z).
Proof.
  unfold is_int, int_min, int_max, wrap.
  pose proof (Z.mod_pos_bound (z + 2 ^ 63) (2 ^ 64) ltac:(lia)). lia.
Qed.

(** ** Maximum and gcd of a pool *)

Section Pool.
Context {Handler Updater : Type}.
Implicit Types (l : list (server Handler)) (s : server Handler).
Implicit Types (b : WRRLoadBalancer Handler Updater).

Lemma maxWeight_of_cons s l :
  maxWeight_of (s :: l) = Z.max (weight s) (maxWeight_of l).
Proof.
  unfold maxWeight_of. simpl.
  assert (forall l m, -1 <= m ->
    fold_left (fun max s => if max <? weight s then weight s else max) l m
    = Z.max m (fold_left (fun max s => if max <? weight s then weight s else max) l (-1)))
    as Hgen.
  { clear. induction l as [|s l IH]; intros m Hm; simpl; [lia|].
    rewrite (IH (if m <? weight s then _ else _)),
            (IH (if -1 <? weight s then _ else _));
      cases_Z; lia. }
  rewrite Hgen by (cases_Z; lia).
  pose proof (Hgen l (-1) ltac:(lia)). cases_Z; lia.
Qed.

Lemma maxWeight_of_lower l : -1 <= maxWeight_of l.
Proof.
  induction l as [|s l IH]; [done|]. rewrite maxWeight_of_cons. lia.
Qed.

Lemma maxWeight_of_upper l s : s ∈ l -> weight s <= maxWeight_of l.
Proof.
  induction 1 as [s l|s s' l _ IH]; rewrite maxWeight_of_cons; lia.
Qed.

Lemma maxWeight_of_attained l :
  0 <= maxWeight_of l -> exists s, s ∈ l /\ weight s = maxWeight_of l.
Proof.
  induction l as [|s l IH]; [done|]. rewrite maxWeight_of_cons. intros H.
  destruct (Z.max_spec (weight s) (maxWeight_of l)) as [[? ->]|[? ->]].
  - destruct IH as (s' & ? & ?); [lia|]. exists s'. split; [by right|done].
  - exists s. split; [by left|done].
Qed.

Lemma maxWeight_of_app l s :
  maxWeight_of (l ++ [s]) = Z.max (maxWeight_of l) (weight s).
Proof.
  induction l as [|s' l IH]; simpl.
  - rewrite maxWeight_of_cons. unfold maxWeight_of. simpl. lia.
  - rewrite !maxWeight_of_cons, IH. lia.
Qed.

(** All weights negative: the maximum stays at its initial value. *)
Lemma maxWeight_of_negative l :
  Forall (fun s => weight s < 0) l -> maxWeight_of l = -1.
Proof.
  induction 1 as [|s l Hs _ IH]; [done|]. rewrite maxWeight_of_cons. lia.
Qed.

Lemma gcd_of_weights_nonneg l : 0 <= gcd_of_weights l.
Proof. destruct l; simpl; [done|apply Z.gcd_nonneg]. Qed.

Lemma gcd_of_weights_divide l s : s ∈ l -> (gcd_of_weights l | weight s).
Proof.
  induction 1 as [s l|s s' l _ IH]; simpl.
  - apply Z.gcd_divide_l.
  - etrans; [apply Z.gcd_divide_r|done].
Qed.

Lemma gcd_of_weights_pos l s : s ∈ l -> weight s ≠ 0 -> 0 < gcd_of_weights l.
Proof.
  intros Hs Hw. pose proof (gcd_of_weights_nonneg l).
  destruct (gcd_of_weights_divide l s Hs) as [q Hq].
  destruct (Z.eq_dec (gcd_of_weights l) 0) as [E|]; [|lia].
  rewrite E in Hq. lia.
Qed.

(** On a non-empty pool of non-negative weights [weightGcd] is the
    greatest common divisor of the weights. *)
Lemma weightGcd_of_nonneg l :
  l ≠ [] -> Forall (fun s => 0 <= weight s) l ->
  weightGcd_of l = gcd_of_weights l.
Proof.
  assert (forall l d, 0 <= d -> Forall (fun s => 0 <= weight s) l ->
    fold_left (fun divisor s =>
                 if divisor =? -1 then weight s else gcd divisor (weight s)) l d
    = Z.gcd d (gcd_of_weights l)) as Hgen.
  { clear. induction l as [|s l IH]; intros d Hd Hl; simpl.
    - rewrite Z.gcd_0_r. lia.
    - inversion_clear Hl as [|?? Hs Hl'].
      destruct (Z.eqb_spec d (-1)); [lia|].
      rewrite gcd_nonneg by done.
      rewrite IH by (done || apply Z.gcd_nonneg).
      by rewrite Z.gcd_assoc. }
  destruct l as [|s l]; [done|]. intros _ Hl.
  inversion_clear Hl as [|?? Hs Hl'].
  unfold weightGcd_of. simpl. by apply Hgen.
Qed.

Lemma gcd_of_weights_scale k l :
  0 <= k -> gcd_of_weights (scale k l) = k * gcd_of_weights l.
Proof.
  intros Hk. induction l as [|s l IH]; [simpl; lia|].
  unfold gcd_of_weights, scale in *. rewrite fmap_cons. simpl.
  rewrite IH. by apply Z.gcd_mul_mono_l_nonneg.
Qed.

Lemma maxWeight_of_scale k l :
  0 < k -> 0 <= maxWeight_of l -> maxWeight_of (scale k l) = k * maxWeight_of l.
Proof.
  intros Hk.
  assert (maxWeight_of (scale k l)
          = if maxWeight_of l <? 0 then -1 else k * maxWeight_of l) as ->.
  { induction l as [|s l IH]; [done|].
    change (scale k (s :: l)) with (Server (handler s) (k * weight s) :: scale k l).
    rewrite !maxWeight_of_cons, IH. simpl.
    pose proof (maxWeight_of_lower l). cases_Z; nia. }
  cases_Z; lia.
Qed.
End Pool.

(** ** The selection loop on a pool of non-negative weights *)

Section Loop.
Context {Handler Updater : Type}.
Implicit Types (s srv : server Handler) (b : WRRLoadBalancer Handler Updater).

Lemma advance_frame M g b :
  servers (advance M g b) = servers b
  /\ status (advance M g b) = status b
  /\ updaters (advance M g b) = updaters b.
Proof. unfold advance. simpl. by repeat case_match. Qed.

Lemma advance_servers M g b : servers (advance M g b) = servers b.
Proof. apply advance_frame. Qed.

(** The index after a turn, and the current weight with it. *)
Lemma advance_spec M g b :
  1 <= len (servers b) <= int_max -> -1 <= index b < len (servers b) ->
  index (advance M g b)
    = (if index b + 1 <? len (servers b) then index b + 1 else 0)
  /\ currentWeight (advance M g b)
    = (if index (advance M g b) =? 0
       then (if wrap (currentWeight b - g) <=? 0 then M
             else wrap (currentWeight b - g))
       else currentWeight b).
Proof.
  intros Hlen Hi. unfold advance. simpl.
  rewrite wrap_id by (unfold is_int, int_min, int_max in *; lia).
  assert (Z.rem (index b + 1) (len (servers b))
          = if index b + 1 <? len (servers b) then index b + 1 else 0) as ->.
  { cases_Z; [apply Z.rem_small; lia|].
    replace (index b + 1) with (len (servers b)) by lia.
    apply Z.rem_same. lia. }
  repeat case_match; simpl in *; split; congruence.
Qed.

Lemma server_at_Some (l : list (server Handler)) i :
  0 <= i < len l -> exists srv, server_at l i = Some srv.
Proof.
  intros Hi. unfold server_at, len in *.
  destruct (Z.ltb_spec i 0); [lia|].
  destruct (lookup_lt_is_Some_2 l (Z.to_nat i)) as [srv ?]; [lia|]. eauto.
Qed.

Lemma server_at_elem (l : list (server Handler)) i srv :
  server_at l i = Some srv -> srv ∈ l /\ 0 <= i < len l.
Proof.
  unfold server_at, len. destruct (Z.ltb_spec i 0); [done|]. intros Hsrv.
  split; [by eapply list_elem_of_lookup_2|].
  apply lookup_lt_Some in Hsrv. lia.
Qed.

Lemma next_loop_unfold fuel M g b :
  next_loop (S fuel) M g b
  = match hit (advance M g b) with
    | Some srv => Done (srv, advance M g b)
    | None =>
        match server_at (servers (advance M g b)) (index (advance M g b)) with
        | Some _ => next_loop fuel M g (advance M g b)
        | None => Panic
        end
    end.
Proof. simpl. unfold hit. by repeat case_match. Qed.

(** More fuel does not change a result. *)
Lemma next_loop_mono fuel fuel' M g b r :
  (fuel <= fuel')%nat ->
  next_loop fuel M g b = Done r -> next_loop fuel' M g b = Done r.
Proof.
  revert fuel' b. induction fuel as [|fuel IH]; intros fuel' b Hle; [done|].
  destruct fuel' as [|fuel']; [lia|]. simpl.
  repeat case_match; try done. apply IH. lia.
Qed.

(** What a pool of non-negative weights with a positive one gives the loop. *)
Lemma pool_facts (l : list (server Handler)) :
  representable l -> nonneg_pool l -> 0 < maxWeight_of l ->
  0 < weightGcd_of l <= maxWeight_of l
  /\ maxWeight_of l <= int_max
  /\ 1 <= len l <= int_max
  /\ weightGcd_of l = gcd_of_weights l
  /\ (exists m s, l !! m = Some s /\ weight s = maxWeight_of l)
  /\ (forall s, s ∈ l ->
        (weightGcd_of l | weight s) /\ 0 <= weight s <= maxWeight_of l).
Proof.
  intros [Hint Hlen] Hnn Hmax.
  destruct (maxWeight_of_attained l ltac:(lia)) as (sM & HsM & HwM).
  assert (l ≠ []) as Hne by (intros ->; by apply elem_of_nil in HsM).
  rewrite weightGcd_of_nonneg by done.
  pose proof (gcd_of_weights_pos l sM HsM ltac:(lia)) as Hg.
  pose proof (gcd_of_weights_divide l sM HsM) as Hd.
  apply Z.divide_pos_le in Hd; [|lia].
  rewrite Forall_forall in Hint. pose proof (Hint sM HsM) as [_ HiM].
  unfold nonneg_pool in Hnn. rewrite Forall_forall in Hnn.
  split_and!; try lia; try done.
  - destruct l; [done|]. unfold len. simpl. lia.
  - apply list_elem_of_lookup_1 in HsM as [m Hm]. eauto.
  - intros s Hs. split_and!.
    + by apply gcd_of_weights_divide.
    + by apply Hnn.
    + by apply maxWeight_of_upper.
Qed.

Section Usable.
Variable l : list (server Handler).
Hypothesis Hrep : representable l.
Hypothesis Hnn : nonneg_pool l.
Hypothesis Hmax : 0 < maxWeight_of l.

Local Abbreviation M := (maxWeight_of l).
Local Abbreviation g := (weightGcd_of l).
Local Abbreviation n := (len l).

(** A turn keeps the rotation state in order and leaves the current
    weight positive. *)
Lemma advance_ok b :
  servers b = l -> rotation_ok b ->
  0 <= index (advance M g b) < n
  /\ 0 < currentWeight (advance M g b) <= M
  /\ rotation_ok (advance M g b).
Proof.
  intros Hl Hok.
  destruct (pool_facts l Hrep Hnn Hmax) as (Hg & HM & Hn & _).
  assert (-1 <= index b < n /\ 0 <= currentWeight b <= M) as [Hi Hc].
  { rewrite <- Hl. unfold rotation_ok, maxWeight in Hok. rewrite Hl in *. lia. }
  destruct (advance_spec M g b) as [Ei Ec]; [rewrite Hl; lia..|].
  rewrite Hl in Ei.
  rewrite wrap_id in Ec by (unfold is_int, int_min, int_max in *; lia).
  assert (0 <= index (advance M g b) < n) as Hi' by (rewrite Ei; cases_Z; lia).
  assert (0 < currentWeight (advance M g b) <= M) as Hc'.
  { rewrite Ec, Ei. destruct Hok as [[? ?]|[? ?]]; cases_Z; lia. }
  split_and!; try lia. right.
  unfold maxWeight. rewrite advance_servers, Hl. lia.
Qed.

(** The loop returns within one round of the pool. *)
Lemma next_loop_bound b :
  servers b = l -> rotation_ok b ->
  exists srv b', next_loop (length l) M g b = Done (srv, b').
Proof.
  intros Hl Hok.
  destruct (pool_facts l Hrep Hnn Hmax)
    as (Hg & HM & Hn & _ & (m & sM & Hm & HwM) & _).
  pose proof (lookup_lt_Some _ _ _ Hm) as Hmlt.
  set (dist := fun b => if index b <? Z.of_nat m then Z.of_nat m - index b
                        else Z.of_nat m - index b + n).
  assert (forall fuel b, servers b = l -> rotation_ok b ->
            dist b <= Z.of_nat fuel ->
            exists srv b', next_loop fuel M g b = Done (srv, b')) as Hgen.
  { clear b Hl Hok. induction fuel as [|fuel IH]; intros b Hl Hok Hd.
    - assert (-1 <= index b < n) as Hi.
      { rewrite <- Hl. unfold rotation_ok in Hok. rewrite Hl in *. lia. }
      unfold dist, len in *. cases_Z; lia.
    - assert (-1 <= index b < n) as Hi.
      { rewrite <- Hl. unfold rotation_ok in Hok. rewrite Hl in *. lia. }
      destruct (advance_ok b Hl Hok) as (Hi' & Hc' & Hok').
      destruct (advance_spec M g b) as [Ei _]; [rewrite Hl; lia..|].
      rewrite Hl in Ei.
      rewrite next_loop_unfold. unfold hit. rewrite advance_servers, Hl.
      destruct (server_at_Some l (index (advance M g b)) Hi') as [srv Hsrv].
      rewrite Hsrv. destruct (Z.leb_spec (currentWeight (advance M g b)) (weight srv));
        [eauto|].
      apply IH; [by rewrite advance_servers|done|].
      assert (index (advance M g b) ≠ Z.of_nat m) as Hne.
      { intros E. rewrite E in Hsrv. unfold server_at in Hsrv.
        destruct (Z.ltb_spec (Z.of_nat m) 0); [lia|].
        rewrite Nat2Z.id, Hm in Hsrv. injection Hsrv as <-. lia. }
      unfold dist, len in *. rewrite Ei in Hne |- *. cases_Z; lia. }
  apply Hgen; [done..|].
  assert (-1 <= index b < n) as Hi.
  { rewrite <- Hl. unfold rotation_ok in Hok. rewrite Hl in *. lia. }
  unfold dist, len in *. cases_Z; lia.
Qed.

(** Where the loop stops. *)
Lemma next_loop_result fuel b srv b' :
  servers b = l -> rotation_ok b ->
  next_loop fuel M g b = Done (srv, b') ->
  servers b' = l /\ status b' = status b /\ updaters b' = updaters b
  /\ rotation_ok b'
  /\ server_at l (index b') = Some srv
  /\ 0 < currentWeight b' <= weight srv.
Proof.
  revert b. induction fuel as [|fuel IH]; intros b Hl Hok; [done|].
  destruct (advance_ok b Hl Hok) as (Hi' & Hc' & Hok').
  destruct (advance_frame M g b) as (Es & Est & Eu).
  simpl. rewrite Es, Hl.
  destruct (server_at l (index (advance M g b))) as [srv'|] eqn:Hsrv; [|done].
  destruct (Z.leb_spec (currentWeight (advance M g b)) (weight srv')).
  - intros [= <- <-]. rewrite Es, Hl. split_and!; try done; lia.
  - intros Hrec. apply IH in Hrec; [|by rewrite Es|done].
    destruct Hrec as (? & Hst & Hu & ? & ? & ?). rewrite Hst, Hu.
    split_and!; (done || lia).
Qed.
End Usable.
End Loop.

(** ** Calls of [next] *)

Section Next.
Context {Handler Updater : Type}.
Implicit Types (s srv : server Handler) (b : WRRLoadBalancer Handler Updater).

Lemma next_loop_frame fuel M g b srv b' :
  next_loop fuel M g b = Done (srv, b') ->
  servers b' = servers b /\ status b' = status b /\ updaters b' = updaters b.
Proof.
  revert b. induction fuel as [|fuel IH]; intros b; [done|].
  destruct (advance_frame M g b) as (Es & Est & Eu).
  simpl. repeat case_match; try done.
  - intros [= <- <-]. done.
  - intros Hrec. apply IH in Hrec as (-> & -> & ->). done.
Qed.

(** The three ways a call of [next] ends with a result. *)
Lemma next_Done fuel b r b' :
  next fuel b = Done (r, b') ->
  (servers b = [] /\ r = inr EmptyPoolError /\ b' = b)
  \/ (servers b ≠ [] /\ maxWeight b = 0 /\ r = inr AllZeroWeightError /\ b' = b)
  \/ (servers b ≠ [] /\ maxWeight b ≠ 0 /\ exists srv,
        r = inl srv
        /\ next_loop fuel (maxWeight b) (weightGcd b) b = Done (srv, b')).
Proof.
  unfold next, len. destruct (servers b) as [|s0 l] eqn:El.
  - simpl. intros [= <- <-]. by left.
  - rewrite <- El. destruct (Z.eqb_spec (Z.of_nat (length (servers b))) 0) as [E|_].
    { rewrite El in E. simpl in E. lia. }
    assert (servers b ≠ []) by (by rewrite El).
    destruct (Z.eqb_spec (maxWeight b) 0) as [E|E].
    + intros [= <- <-]. right. by left.
    + destruct (next_loop _ _ _ _) as [[srv b'']| |] eqn:Hloop; try done.
      intros [= <- <-]. right. right. eauto.
Qed.

(** A call that returns leaves the pool, the status map and the updaters
    alone; a call that fails leaves the whole balancer alone. *)
Lemma next_frame fuel b r b' :
  next fuel b = Done (r, b') ->
  servers b' = servers b /\ status b' = status b /\ updaters b' = updaters b
  /\ (forall e, r = inr e -> b' = b).
Proof.
  intros Hnext. apply next_Done in Hnext
    as [(_ & -> & ->)|[(_ & _ & -> & ->)|(_ & _ & srv & -> & Hloop)]]; try done.
  apply next_loop_frame in Hloop as (? & ? & ?). done.
Qed.

Lemma nonneg_pool_maxWeight (l : list (server Handler)) :
  l ≠ [] -> nonneg_pool l -> 0 <= maxWeight_of l.
Proof.
  destruct l as [|s l]; [done|]. intros _ Hnn.
  inversion_clear Hnn. rewrite maxWeight_of_cons. lia.
Qed.

(** A non-empty pool of negative weights passes both tests of [next]: the
    maximum is -1, not 0, and no error is returned. *)
Lemma negative_pool_never_fails fuel b r b' :
  servers b ≠ [] -> Forall (fun s => weight s < 0) (servers b) ->
  next fuel b = Done (r, b') -> exists srv, r = inl srv.
Proof.
  intros Hne Hneg Hnext. apply maxWeight_of_negative in Hneg.
  apply next_Done in Hnext
    as [(? & _)|[(_ & Hmax & _)|(_ & _ & srv & -> & _)]]; [done| |eauto].
  unfold maxWeight in Hmax. lia.
Qed.

(** Every balancer a program can hold over non-negative weights has its
    rotation state in order. *)
Lemma reachable_rotation_ok b :
  reachable b -> representable (servers b) -> nonneg_pool (servers b) ->
  rotation_ok b.
Proof.
  induction 1 as [|b h w _ IH|fuel b r b' _ IH Hnext|b st ups _ IH];
    intros Hrep Hnn.
  - by left.
  - unfold AddWeightServer in *. simpl in *.
    destruct Hrep as [Hint Hlen]. unfold len in Hlen.
    rewrite length_app in Hlen. simpl in Hlen.
    apply Forall_app in Hint as [Hint _]. apply Forall_app in Hnn as [Hnn _].
    destruct IH as [?|[? ?]]; [split; [done|unfold len; lia]|done|by left|].
    right. unfold maxWeight, len in *. simpl.
    rewrite maxWeight_of_app, length_app. simpl. lia.
  - apply next_Done in Hnext
      as [(_ & _ & ->)|[(_ & _ & _ & ->)|(Hne & Hmax & srv & _ & Hloop)]];
      [by apply IH..|].
    pose proof (next_loop_frame _ _ _ _ _ _ Hloop) as (Es & _ & _).
    rewrite Es in Hrep, Hnn.
    pose proof (nonneg_pool_maxWeight _ Hne Hnn).
    eapply (next_loop_result (servers b)) in Hloop; try done.
    + tauto.
    + unfold maxWeight in Hmax. lia.
    + by apply IH.
  - simpl in *. specialize (IH Hrep Hnn). exact IH.
Qed.
End Next.

(** ** Calls and turns

    On a pool of non-negative weights with a positive one, the calls of
    [next] cut the sequence of turns after every hit. *)

Section Schedule.
Context {Handler Updater : Type}.
Implicit Types (s srv : server Handler) (b : WRRLoadBalancer Handler Updater).

Variable l : list (server Handler).
Hypothesis Hrep : representable l.
Hypothesis Hnn : nonneg_pool l.
Hypothesis Hmax : 0 < maxWeight_of l.

Local Abbreviation M := (maxWeight_of l).
Local Abbreviation g := (weightGcd_of l).
Local Abbreviation n := (len l).

Lemma next_on_pool fuel b :
  servers b = l ->
  next fuel b = match next_loop fuel M g b with
                | Done (srv, b') => Done (inl srv, b')
                | Panic => Panic
                | Timeout => Timeout
                end.
Proof.
  intros Hl. destruct (pool_facts l Hrep Hnn Hmax) as (_ & _ & Hn & _).
  unfold next, maxWeight, weightGcd. rewrite Hl.
  destruct (Z.eqb_spec n 0); [lia|]. destruct (Z.eqb_spec M 0); [lia|]. done.
Qed.

Lemma next_hit b srv :
  servers b = l -> hit (advance M g b) = Some srv ->
  next (length l) b = Done (inl srv, advance M g b).
Proof.
  intros Hl Hhit. rewrite next_on_pool by done.
  destruct (pool_facts l Hrep Hnn Hmax) as (_ & _ & Hn & _).
  unfold len in Hn. destruct (length l) as [|k]; [lia|].
  by rewrite next_loop_unfold, Hhit.
Qed.

Lemma next_skip b :
  servers b = l -> rotation_ok b -> hit (advance M g b) = None ->
  next (length l) b = next (length l) (advance M g b).
Proof.
  intros Hl Hok Hhit.
  rewrite !next_on_pool by (done || by rewrite advance_servers).
  destruct (next_loop_bound l Hrep Hnn Hmax b Hl Hok) as (srv & b' & Hb).
  rewrite Hb.
  destruct (length l) as [|k] eqn:Ek; [done|].
  rewrite next_loop_unfold, Hhit in Hb.
  destruct (server_at _ _); [|done].
  by rewrite (next_loop_mono k (S k) _ _ _ _ ltac:(lia) Hb).
Qed.

Lemma after_rotation_ok k b :
  servers b = l -> rotation_ok b ->
  servers (after M g k b) = l /\ rotation_ok (after M g k b).
Proof.
  revert b. induction k as [|k IH]; intros b Hl Hok; [done|]. simpl.
  apply IH; [by rewrite advance_servers|].
  by apply (advance_ok l Hrep Hnn Hmax).
Qed.

Lemma hits_nonempty k b :
  k ≠ 0%nat -> is_Some (hit (after M g k b)) -> hits M g k b ≠ [].
Proof.
  revert b. induction k as [|k IH]; intros b Hk Hlast; [done|]. simpl in *.
  destruct k as [|k].
  - simpl in Hlast. destruct Hlast as [srv ->]. done.
  - destruct (hit (advance M g b)); [done|]. by apply IH.
Qed.

(** Turns that end on a hit are as many calls as there are hits among
    them, and the calls return these hits in order. *)
Lemma selections_hits k b :
  servers b = l -> rotation_ok b ->
  k = 0%nat \/ is_Some (hit (after M g k b)) ->
  selections (length l) (length (hits M g k b)) b
  = Done (Some (hits M g k b), after M g k b).
Proof.
  revert b. induction k as [|k IH]; intros b Hl Hok Hlast; [done|].
  destruct Hlast as [|Hlast]; [done|].
  destruct (advance_ok l Hrep Hnn Hmax b Hl Hok) as (_ & _ & Hok').
  pose proof (advance_servers M g b) as Es. rewrite Hl in Es.
  assert (k = 0%nat \/ is_Some (hit (after M g k (advance M g b)))) as Hk.
  { destruct k; [by left|by right]. }
  specialize (IH _ Es Hok' Hk).
  simpl in *. destruct (hit (advance M g b)) as [srv|] eqn:Hhit.
  - simpl. by rewrite (next_hit b srv), IH.
  - destruct Hk as [->|Hk]; [simpl in Hlast; rewrite Hhit in Hlast;
                              by destruct Hlast|].
    assert (k ≠ 0%nat) as Hk0.
    { intros ->. simpl in Hk. rewrite Hhit in Hk. by destruct Hk. }
    pose proof (hits_nonempty k _ Hk0 Hk) as Hne.
    destruct (hits M g k (advance M g b)) as [|p ps] eqn:Eh; [done|].
    simpl in *. by rewrite next_skip.
Qed.
End Schedule.

(** ** Passes over the pool *)

Section Passes.
Context {Handler Updater : Type}.
Implicit Types (s srv : server Handler) (b : WRRLoadBalancer Handler Updater).

Lemma balancer_eta b :
  b = Balancer (servers b) (currentWeight b) (index b) (status b) (updaters b).
Proof. by destruct b. Qed.

Lemma after_add M g j k b :
  after M g (j + k) b = after M g k (after M g j b).
Proof. revert b. induction j as [|j IH]; intros b; simpl; [done|apply IH]. Qed.

Lemma hits_add M g j k b :
  hits M g (j + k) b = hits M g j b ++ hits M g k (after M g j b).
Proof.
  revert b. induction j as [|j IH]; intros b; simpl; [done|].
  rewrite IH. by destruct (hit _).
Qed.

Lemma server_at_middle (l1 l2 : list (server Handler)) s :
  server_at (l1 ++ s :: l2) (len l1) = Some s.
Proof.
  unfold server_at, len. destruct (Z.ltb_spec (Z.of_nat (length l1)) 0); [lia|].
  rewrite Nat2Z.id. by apply list_lookup_middle.
Qed.

(** Turns that stay inside a pass: the index walks over the rest of the
    pool and the current weight stands still. *)
Lemma turns_in_pass M g (l2 l1 : list (server Handler)) b :
  servers b = l1 ++ l2 -> l1 ≠ [] -> len (l1 ++ l2) <= int_max ->
  index b = len l1 - 1 ->
  after M g (length l2) b
    = Balancer (servers b) (currentWeight b) (len (l1 ++ l2) - 1)
               (status b) (updaters b)
  /\ hits M g (length l2) b = scan (currentWeight b) (len l1) l2.
Proof.
  revert l1 b. induction l2 as [|s l2 IH]; intros l1 b Hl Hne Hlen Hi.
  - simpl. rewrite app_nil_r, <- Hi. split; [apply balancer_eta|done].
  - assert (1 <= len l1) as Hl1 by (destruct l1; [done|unfold len; simpl; lia]).
    assert (len (l1 ++ s :: l2) = len l1 + 1 + len l2) as Elen.
    { unfold len. rewrite length_app. simpl. lia. }
    destruct (advance_spec M g b) as [Ei Ec];
      [rewrite Hl; unfold len in *; lia..|].
    destruct (advance_frame M g b) as (Es & Est & Eu).
    rewrite Hl, Hi, Elen in Ei.
    assert (index (advance M g b) = len l1) as Ei'
      by (rewrite Ei; unfold len in *; cases_Z; lia).
    rewrite Ei' in Ec. destruct (Z.eqb_spec (len l1) 0) as [|_]; [lia|].
    specialize (IH (l1 ++ [s]) (advance M g b)).
    rewrite <- app_assoc in IH. simpl in IH.
    destruct IH as [IHa IHh]; [by rewrite Es|by destruct l1|done| |].
    { rewrite Ei'. unfold len. rewrite length_app. simpl. lia. }
    simpl. rewrite IHa, IHh, Es, Est, Eu, Ec. split; [done|].
    unfold hit. rewrite Es, Hl, Ei', server_at_middle, Ec.
    replace (len (l1 ++ [s])) with (len l1 + 1)
      by (unfold len; rewrite length_app; simpl; lia).
    by destruct (_ <=? _).
Qed.

(** A whole pass: the turn that brings the index back to 0 sets the
    current weight [c] of the pass. *)
Lemma full_pass M g (l : list (server Handler)) b :
  servers b = l -> l ≠ [] -> len l <= int_max ->
  index b = -1 \/ index b = len l - 1 ->
  let c := if wrap (currentWeight b - g) <=? 0 then M
           else wrap (currentWeight b - g) in
  after M g (length l) b = Balancer l c (len l - 1) (status b) (updaters b)
  /\ hits M g (length l) b = scan c 0 l.
Proof.
  intros Hl Hne Hlen Hi c. destruct l as [|s l2]; [done|].
  assert (1 <= len (s :: l2)) as Hn by (unfold len; simpl; lia).
  destruct (advance_spec M g b) as [Ei Ec]; [rewrite Hl; lia..|].
  destruct (advance_frame M g b) as (Es & Est & Eu).
  assert (index (advance M g b) = 0) as Ei'.
  { rewrite Ei, Hl. destruct Hi as [->| ->]; cases_Z; lia. }
  rewrite Ei' in Ec. simpl in Ec. fold c in Ec.
  destruct (turns_in_pass M g l2 [s] (advance M g b)) as [Ha Hh];
    [by rewrite Es, Hl|done|done|by rewrite Ei'|].
  change (length (s :: l2)) with (S (length l2)).
  cbn [after hits]. rewrite Ha, Hh, Es, Est, Eu, Ec, Hl. split; [done|].
  unfold hit. rewrite Es, Hl, Ei', Ec. simpl.
  change (len [s]) with (0 + 1). by destruct (c <=? weight s).
Qed.
End Passes.

(** ** Counting the selections of a cycle *)

Section Counting.
Context {Handler : Type}.
Implicit Types (s : server Handler) (l : list (server Handler)).
Implicit Types (sel : list (Z * server Handler)).

Lemma times_selected_app i sel1 sel2 :
  times_selected i (sel1 ++ sel2) = times_selected i sel1 + times_selected i sel2.
Proof. unfold times_selected. rewrite filter_app, length_app. lia. Qed.

Lemma times_selected_cons i j s sel :
  times_selected i ((j, s) :: sel)
  = (if i =? j then 1 else 0) + times_selected i sel.
Proof.
  unfold times_selected. rewrite filter_cons. simpl.
  destruct (Z.eqb_spec i j); case_decide; simpl; lia.
Qed.

Lemma server_at_cons s l i :
  server_at (s :: l) i = if i =? 0 then Some s else server_at l (i - 1).
Proof.
  unfold server_at. destruct (Z.eqb_spec i 0) as [->|]; [done|].
  destruct (Z.ltb_spec i 0), (Z.ltb_spec (i - 1) 0); try lia; [done|].
  replace (Z.to_nat i) with (S (Z.to_nat (i - 1))) by lia. done.
Qed.

Lemma server_at_nil i : server_at ([] : list (server Handler)) i = None.
Proof. unfold server_at. by destruct (_ <? _). Qed.

Lemma server_at_negative l i : i < 0 -> server_at l i = None.
Proof. unfold server_at. destruct (Z.ltb_spec i 0); [done|lia]. Qed.

(** A pass stops at most once at a position: when the server there is
    heavy enough. *)
Lemma scan_count c j l i :
  times_selected i (scan c j l)
  = match server_at l (i - j) with
    | Some s => if c <=? weight s then 1 else 0
    | None => 0
    end.
Proof.
  revert j. induction l as [|s l IH]; intros j.
  - by rewrite server_at_nil.
  - rewrite server_at_cons. simpl.
    assert (times_selected i (scan c (j + 1) l)
            = if i - j =? 0 then 0
              else match server_at l (i - j - 1) with
                   | Some s => if c <=? weight s then 1 else 0
                   | None => 0
                   end) as Hrest.
    { rewrite IH. replace (i - (j + 1)) with (i - j - 1) by lia.
      destruct (Z.eqb_spec (i - j) 0) as [E|]; [|done].
      by rewrite server_at_negative by lia. }
    destruct (Z.eqb_spec (i - j) 0); lazy beta iota;
      destruct (Z.leb_spec c (weight s));
      rewrite ?times_selected_cons, Hrest; cases_Z; lia.
Qed.

Lemma passes_count g l q i s :
  server_at l i = Some s -> 0 < g -> (g | weight s) -> 0 <= weight s ->
  times_selected i (passes g l (g * Z.of_nat q) q)
  = Z.min (Z.of_nat q) (weight s / g).
Proof.
  intros Hs Hg [t Ht] Hw. rewrite Ht, Z.div_mul by lia.
  assert (0 <= t) by nia.
  induction q as [|q IH]; [by replace (Z.min (Z.of_nat 0) t) with 0 by lia|].
  cbn [passes]. rewrite times_selected_app, scan_count, Z.sub_0_r, Hs.
  replace (g * Z.of_nat (S q) - g) with (g * Z.of_nat q) by lia.
  rewrite IH, Ht. cases_Z; nia.
Qed.

Lemma scan_length c j l :
  Z.of_nat (length (scan c j l))
  = foldr (fun s acc => (if c <=? weight s then 1 else 0) + acc) 0 l.
Proof.
  revert j. induction l as [|s l IH]; intros j; [done|]. simpl.
  rewrite <- (IH (j + 1)). destruct (c <=? weight s); simpl; lia.
Qed.

Lemma passes_length g l q :
  0 < g -> Forall (fun s => (g | weight s) /\ 0 <= weight s) l ->
  Z.of_nat (length (passes g l (g * Z.of_nat q) q))
  = foldr (fun s acc => Z.min (Z.of_nat q) (weight s / g) + acc) 0 l.
Proof.
  intros Hg Hl. induction q as [|q IH].
  - simpl. induction Hl as [|s l [_ Hs] _ IHl]; [done|]. simpl.
    pose proof (Z.div_pos (weight s) g Hs Hg). lia.
  - cbn [passes]. rewrite length_app, Nat2Z.inj_add, scan_length.
    replace (g * Z.of_nat (S q) - g) with (g * Z.of_nat q) by lia.
    rewrite IH. clear IH.
    induction Hl as [|s l [[t Ht] Hs] _ IHl]; [done|]. simpl.
    rewrite <- IHl. rewrite Ht, Z.div_mul by lia.
    assert (0 <= t) by nia. cases_Z; nia.
Qed.

Lemma quota_total g l Q :
  0 < g -> Forall (fun s => (g | weight s) /\ 0 <= weight s <= g * Q) l ->
  foldr (fun s acc => Z.min Q (weight s / g) + acc) 0 l = total_weight l / g.
Proof.
  intros Hg. induction 1 as [|s l [[t Ht] Hs] _ IH]; [done|].
  cbn [foldr total_weight]. fold (total_weight l).
  rewrite IH, Ht, Z.div_add_l, Z.div_mul by lia. nia.
Qed.
End Counting.

(** ** A full cycle on a pool of positive weights *)

Section Cycle.
Context {Handler Updater : Type}.
Implicit Types (s srv : server Handler) (b : WRRLoadBalancer Handler Updater).

Lemma selections_add fuel j k b sel1 b1 sel2 b2 :
  selections fuel j b = Done (Some sel1, b1) ->
  selections fuel k b1 = Done (Some sel2, b2) ->
  selections fuel (j + k) b = Done (Some (sel1 ++ sel2), b2).
Proof.
  revert b sel1. induction j as [|j IH]; intros b sel1 H1 H2; simpl in *.
  - by injection H1 as <- <-.
  - destruct (next fuel b) as [[[srv|e] b']| |]; try done.
    destruct (selections fuel j b') as [[[sel|] b'']| |] eqn:Hj; try done.
    injection H1 as <- <-. by rewrite (IH _ _ Hj H2).
Qed.

Variable l : list (server Handler).
Hypothesis Hrep : representable l.
Hypothesis Hpos : Forall (fun s => 0 < weight s) l.
Hypothesis Hne : l ≠ [].

Local Abbreviation M := (maxWeight_of l).
Local Abbreviation g := (weightGcd_of l).
Local Abbreviation n := (len l).
Local Abbreviation Q := (Z.to_nat (M / g)).

Lemma positive_nonneg : nonneg_pool l.
Proof. eapply Forall_impl; [exact Hpos|]. simpl. lia. Qed.

Lemma positive_max : 0 < M.
Proof.
  destruct l as [|s l']; [done|]. inversion_clear Hpos.
  rewrite maxWeight_of_cons. lia.
Qed.

Lemma cycle_start_rotation_ok b : cycle_start l b -> rotation_ok b.
Proof.
  destruct (pool_facts l Hrep positive_nonneg positive_max) as (Hg & _ & Hn & _).
  intros [Hl [[? ?]|[? ?]]]; [by left|right].
  unfold maxWeight. rewrite Hl. lia.
Qed.

(** Passes with the current weight stepping down to the gcd. *)
Lemma descent q b :
  servers b = l -> index b = n - 1 ->
  currentWeight b = g * (Z.of_nat q + 1) -> currentWeight b <= M ->
  after M g (q * length l) b = Balancer l g (n - 1) (status b) (updaters b)
  /\ hits M g (q * length l) b = passes g l (g * Z.of_nat q) q.
Proof.
  destruct (pool_facts l Hrep positive_nonneg positive_max)
    as (Hg & HM & Hn & _).
  revert b. induction q as [|q IH]; intros b Hl Hi Hc HcM.
  - simpl. split; [|done].
    rewrite (balancer_eta b) at 1. rewrite Hl, Hi, Hc. f_equal. lia.
  - change (S q * length l)%nat with (length l + q * length l)%nat.
    rewrite after_add, hits_add.
    destruct (full_pass M g l b Hl Hne ltac:(lia) ltac:(by right)) as [Ha Hh].
    rewrite wrap_id in Ha, Hh by (unfold is_int, int_min, int_max in *; lia).
    destruct (Z.leb_spec (currentWeight b - g) 0) as [|_]; [nia|].
    rewrite Ha, Hh.
    destruct (IH (Balancer l (currentWeight b - g) (n - 1) (status b) (updaters b)))
      as [IHa IHh]; simpl; [done|done|lia|lia|].
    rewrite IHa, IHh. split; [done|]. cbn [passes].
    replace (g * Z.of_nat (S q)) with (currentWeight b - g) by lia.
    replace (currentWeight b - g - g) with (g * Z.of_nat q) by lia. done.
Qed.

Lemma max_multiple : M = g * Z.of_nat Q /\ (1 <= Q)%nat.
Proof.
  destruct (pool_facts l Hrep positive_nonneg positive_max)
    as (Hg & _ & _ & _ & (m & sM & Hm & HwM) & Hall).
  destruct (Hall sM) as [[t Ht] _]; [by eapply list_elem_of_lookup_2|].
  rewrite HwM in Ht. rewrite Ht, Z.div_mul by lia.
  assert (1 <= t) by nia. split; lia.
Qed.

(** The turns of a full cycle. *)
Lemma cycle_turns b :
  cycle_start l b ->
  after M g (Q * length l) b = Balancer l g (n - 1) (status b) (updaters b)
  /\ hits M g (Q * length l) b = passes g l M Q.
Proof.
  destruct (pool_facts l Hrep positive_nonneg positive_max)
    as (Hg & HM & Hn & _).
  destruct max_multiple as [EM HQ].
  intros [Hl Hstart]. destruct Q as [|q] eqn:EQ; [lia|].
  change (S q * length l)%nat with (length l + q * length l)%nat.
  rewrite after_add, hits_add.
  destruct (full_pass M g l b Hl Hne ltac:(lia)) as [Ha Hh]; [tauto|].
  rewrite wrap_id in Ha, Hh by (unfold is_int, int_min, int_max in *; lia).
  destruct (Z.leb_spec (currentWeight b - g) 0) as [_|]; [|lia].
  rewrite Ha, Hh.
  destruct (descent q (Balancer l M (n - 1) (status b) (updaters b)))
    as [Da Dh]; simpl; [done|done|lia|lia|].
  rewrite Da, Dh. split; [done|]. cbn [passes].
  replace (M - g) with (g * Z.of_nat q) by lia. done.
Qed.

Lemma last_server_hit st (ups : list Updater) :
  is_Some (hit (Balancer l g (n - 1) st ups)).
Proof.
  destruct (pool_facts l Hrep positive_nonneg positive_max)
    as (Hg & _ & Hn & _ & _ & Hall).
  unfold hit. simpl.
  destruct (server_at_Some l (n - 1) ltac:(lia)) as [s Hs]. rewrite Hs.
  apply server_at_elem in Hs as [Hs _].
  destruct (Hall s Hs) as [Hd _].
  rewrite Forall_forall in Hpos. specialize (Hpos s Hs). simpl in Hpos.
  apply Z.divide_pos_le in Hd; [|done].
  destruct (Z.leb_spec g (weight s)); [eauto|lia].
Qed.

(** The calls of a full cycle: they return the hits of its passes and
    leave the balancer at the start of the next cycle. *)
Lemma cycle_calls b :
  cycle_start l b ->
  selections (length l) (length (passes g l M Q)) b
  = Done (Some (passes g l M Q), Balancer l g (n - 1) (status b) (updaters b))
  /\ cycle_start l (Balancer l g (n - 1) (status b) (updaters b)).
Proof.
  intros Hstart. destruct (cycle_turns b Hstart) as [Ha Hh].
  split; [|split; [done|by right]].
  rewrite <- Hh, <- Ha.
  apply (selections_hits l Hrep positive_nonneg positive_max).
  - apply Hstart.
  - by apply cycle_start_rotation_ok.
  - right. rewrite Ha. apply last_server_hit.
Qed.

Lemma cycle_period :
  length (passes g l M Q) = Z.to_nat (total_weight l / gcd_of_weights l).
Proof.
  destruct (pool_facts l Hrep positive_nonneg positive_max)
    as (Hg & _ & _ & Eg & _ & Hall).
  destruct max_multiple as [EM HQ].
  rewrite <- Eg. apply Nat2Z.inj. rewrite Z2Nat.id.
  - rewrite EM at 1. rewrite passes_length, quota_total.
    + done.
    + lia.
    + rewrite Forall_forall. intros s Hs. rewrite <- EM.
      destruct (Hall s Hs). done.
    + lia.
    + rewrite Forall_forall. intros s Hs. destruct (Hall s Hs). split; [done|lia].
  - apply Z.div_pos; [|lia].
    assert (forall l' : list (server Handler),
              Forall (fun s => 0 < weight s) l' -> 0 <= total_weight l') as Htot.
    { clear. unfold total_weight. induction 1; simpl in *; lia. }
    by apply Htot.
Qed.

(** Any number of cycles from a cycle start. *)
Lemma cycles_calls k b :
  cycle_start l b ->
  exists sel b',
    selections (length l) (k * length (passes g l M Q)) b = Done (Some sel, b')
    /\ cycle_start l b'.
Proof.
  revert b. induction k as [|k IH]; intros b Hstart.
  - exists [], b. done.
  - destruct (cycle_calls b Hstart) as [Hc Hstart'].
    destruct (IH _ Hstart') as (sel & b' & Hk & Hb').
    eexists _, b'. split; [|done].
    change (S k * ?p)%nat with (p + k * p)%nat.
    eapply selections_add; done.
Qed.
End Cycle.

(** ** A pool and its multiple *)

Section Scaled.
Context {Handler Updater : Type}.
Implicit Types (s srv : server Handler) (b : WRRLoadBalancer Handler Updater).

Variable k : Z.
Hypothesis Hk : 0 < k.

Lemma len_scale (l : list (server Handler)) : len (scale k l) = len l.
Proof. unfold len, scale. by rewrite length_fmap. Qed.

Lemma server_at_scale (l : list (server Handler)) i :
  server_at (scale k l) i
  = (fun s => Server (handler s) (k * weight s)) <$> server_at l i.
Proof.
  unfold server_at, scale. destruct (i <? 0); [done|]. apply list_lookup_fmap.
Qed.

Lemma nonneg_pool_scale (l : list (server Handler)) :
  nonneg_pool l -> nonneg_pool (scale k l).
Proof.
  unfold nonneg_pool, scale. rewrite Forall_fmap. intros Hl.
  eapply Forall_impl; [exact Hl|]. intros s. simpl. nia.
Qed.

(** The two balancers side by side: same position, current weights in the
    ratio of the pools. *)
Lemma advance_scaled M g b1 b2 :
  servers b1 = scale k (servers b2) -> index b1 = index b2 ->
  currentWeight b1 = k * currentWeight b2 ->
  0 < g <= M -> k * M <= int_max -> 0 <= currentWeight b2 <= M ->
  servers (advance (k * M) (k * g) b1) = scale k (servers (advance M g b2))
  /\ index (advance (k * M) (k * g) b1) = index (advance M g b2)
  /\ currentWeight (advance (k * M) (k * g) b1)
     = k * currentWeight (advance M g b2)
  /\ 0 <= currentWeight (advance M g b2) <= M.
Proof.
  intros Hs Hi Hc Hg HM Hc2.
  rewrite !advance_servers. split; [done|].
  unfold advance. simpl. rewrite Hs, len_scale, Hi, Hc.
  replace (k * currentWeight b2 - k * g) with (k * (currentWeight b2 - g)) by lia.
  assert (- (k * M) <= k * (currentWeight b2 - g) <= k * M) by nia.
  assert (M <= k * M) by nia.
  rewrite (wrap_id (k * (currentWeight b2 - g))),
          (wrap_id (currentWeight b2 - g))
    by (unfold is_int, int_min, int_max in *; lia).
  destruct (Z.eqb_spec (Z.rem (wrap (index b2 + 1)) (len (servers b2))) 0);
    simpl; [|lia].
  destruct (Z.leb_spec (k * (currentWeight b2 - g)) 0),
           (Z.leb_spec (currentWeight b2 - g) 0); simpl; nia.
Qed.

Lemma next_loop_scaled fuel M g b1 b2 :
  servers b1 = scale k (servers b2) -> index b1 = index b2 ->
  currentWeight b1 = k * currentWeight b2 ->
  0 < g <= M -> k * M <= int_max -> 0 <= currentWeight b2 <= M ->
  match next_loop fuel (k * M) (k * g) b1, next_loop fuel M g b2 with
  | Done (_, b1'), Done (_, b2') =>
      servers b1' = scale k (servers b2') /\ index b1' = index b2'
      /\ currentWeight b1' = k * currentWeight b2'
      /\ 0 <= currentWeight b2' <= M
  | Panic, Panic | Timeout, Timeout => True
  | _, _ => False
  end.
Proof.
  revert b1 b2. induction fuel as [|fuel IH]; intros b1 b2 Hs Hi Hc Hg HM Hc2;
    [done|].
  destruct (advance_scaled M g b1 b2) as (Hs' & Hi' & Hc' & Hc2'); try done.
  simpl. rewrite Hs', server_at_scale, Hi'.
  destruct (server_at _ _) as [srv|]; simpl; [|done].
  rewrite Hc'.
  destruct (Z.leb_spec (k * currentWeight (advance M g b2)) (k * weight srv)),
           (Z.leb_spec (currentWeight (advance M g b2)) (weight srv));
    try nia; [done|].
  by apply IH.
Qed.

Lemma next_scaled fuel b1 b2 :
  nonneg_pool (servers b2) -> representable (servers b1) ->
  servers b1 = scale k (servers b2) -> index b1 = index b2 ->
  currentWeight b1 = k * currentWeight b2 ->
  0 <= currentWeight b2 <= Z.max 0 (maxWeight b2) ->
  match next fuel b1, next fuel b2 with
  | Done (r1, b1'), Done (r2, b2') =>
      servers b1' = scale k (servers b2') /\ index b1' = index b2'
      /\ currentWeight b1' = k * currentWeight b2'
      /\ 0 <= currentWeight b2' <= Z.max 0 (maxWeight b2')
      /\ match r1, r2 with
         | inl _, inl _ | inr _, inr _ => True
         | _, _ => False
         end
  | Panic, Panic | Timeout, Timeout => True
  | _, _ => False
  end.
Proof.
  intros Hnn Hrep Hs Hi Hc Hc2. unfold next, maxWeight, weightGcd.
  rewrite Hs, len_scale. rewrite Hs in Hrep.
  destruct (Z.eqb_spec (len (servers b2)) 0) as [|Hlen]; [done|].
  assert (servers b2 ≠ []) as Hne by (intros E; by rewrite E in Hlen).
  pose proof (nonneg_pool_maxWeight _ Hne Hnn) as HM.
  rewrite maxWeight_of_scale by done.
  destruct (Z.eqb_spec (k * maxWeight_of (servers b2)) 0),
           (Z.eqb_spec (maxWeight_of (servers b2)) 0); try nia; [done|].
  assert (scale k (servers b2) ≠ []) as Hne'.
  { intros E. apply (f_equal length) in E. unfold scale in E.
    rewrite length_fmap in E. by destruct (servers b2). }
  rewrite weightGcd_of_nonneg by (done || by apply nonneg_pool_scale).
  rewrite gcd_of_weights_scale by lia.
  rewrite <- (weightGcd_of_nonneg (servers b2)) by done.
  assert (0 < maxWeight_of (servers b2)) as Hpos by lia.
  assert (k * maxWeight_of (servers b2) <= int_max) as Hbound.
  { destruct (maxWeight_of_attained (scale k (servers b2))) as (s & Hin & Hw).
    - rewrite maxWeight_of_scale by done. nia.
    - rewrite maxWeight_of_scale in Hw by done. rewrite <- Hw.
      destruct Hrep as [Hint _]. rewrite Forall_forall in Hint.
      by apply Hint. }
  assert (0 < weightGcd_of (servers b2) <= maxWeight_of (servers b2)) as Hg.
  { rewrite weightGcd_of_nonneg by done.
    destruct (maxWeight_of_attained (servers b2) HM) as (s & Hin & Hw).
    pose proof (gcd_of_weights_pos _ s Hin ltac:(lia)).
    pose proof (gcd_of_weights_divide _ s Hin) as Hd.
    apply Z.divide_pos_le in Hd; lia. }
  pose proof (next_loop_scaled fuel (maxWeight_of (servers b2))
                (weightGcd_of (servers b2)) b1 b2 Hs Hi Hc Hg Hbound
                ltac:(unfold maxWeight in Hc2; lia)) as Hloop.
  destruct (next_loop fuel (k * _) _ b1) as [[srv1 b1']| |] eqn:H1,
           (next_loop fuel (maxWeight_of _) _ b2) as [[srv2 b2']| |] eqn:H2;
    try done.
  destruct Hloop as (Hs' & Hi' & Hc' & Hc2').
  apply next_loop_frame in H2 as (E2 & _ & _).
  split_and!; [done|done|done|lia|unfold maxWeight; rewrite E2; lia|done].
Qed.

(** The runs of the two balancers stop at the same indices. *)
Lemma selections_scaled fuel j b1 b2 :
  nonneg_pool (servers b2) -> representable (servers b1) ->
  servers b1 = scale k (servers b2) -> index b1 = index b2 ->
  currentWeight b1 = k * currentWeight b2 ->
  0 <= currentWeight b2 <= Z.max 0 (maxWeight b2) ->
  picked (selections fuel j b1) = picked (selections fuel j b2).
Proof.
  revert b1 b2. induction j as [|j IH]; intros b1 b2 Hnn Hrep Hs Hi Hc Hc2;
    [done|].
  pose proof (next_scaled fuel b1 b2 Hnn Hrep Hs Hi Hc Hc2) as Hnext.
  simpl.
  destruct (next fuel b1) as [[r1 b1']| |] eqn:N1,
           (next fuel b2) as [[r2 b2']| |] eqn:N2; try done.
  destruct Hnext as (Hs' & Hi' & Hc' & Hc2' & Hr).
  destruct r1 as [srv1|e1], r2 as [srv2|e2]; try done.
  apply next_frame in N1 as (E1 & _ & _), N2 as (E2 & _ & _).
  assert (picked (selections fuel j b1') = picked (selections fuel j b2')) as IH'.
  { apply IH; try done; [by rewrite E2|by rewrite E1]. }
  destruct (selections fuel j b1') as [[[sel1|] b1'']| |],
           (selections fuel j b2') as [[[sel2|] b2'']| |];
    simpl in *; try done.
  injection IH' as IH'. rewrite Hi'. do 3 f_equal. exact IH'.
Qed.
End Scaled.

(** * The claims *)

(** C4. Weighted fairness: on a pool whose weights are all strictly positive,
    with greatest common divisor [g], the calls of [next] made on a freshly
    populated balancer fall into cycles of [sum(weights)/g] calls; every call
    succeeds within one round of the pool, and in each cycle every entry is
    selected exactly [weight/g] times. *)
Theorem weighted_fairness {Handler Updater : Type}
    (b : WRRLoadBalancer Handler Updater) :
  representable (servers b) ->
  Forall (fun s => 0 < weight s) (servers b) ->
  index b = -1 -> currentWeight b = 0 ->
  let g := gcd_of_weights (servers b) in
  let period := Z.to_nat (total_weight (servers b) / g) in
  forall k : nat, exists sel0 b0 sel b1,
    selections (length (servers b)) (k * period) b = Done (Some sel0, b0)
    /\ selections (length (servers b)) period b0 = Done (Some sel, b1)
    /\ length sel = period
    /\ forall i s, server_at (servers b) i = Some s ->
                   times_selected i sel = weight s / g.
Proof.
  intros Hrep Hpos Hi Hc g period k.
  destruct (decide (servers b = [])) as [E|Hne].
  { subst g period. rewrite E. simpl. rewrite Nat.mul_0_r.
    exists [], b, [], b. split_and!; try done.
    intros i s. by rewrite server_at_nil. }
  pose proof (positive_nonneg _ Hpos) as Hnn.
  pose proof (positive_max _ Hrep Hpos Hne) as Hmax.
  destruct (pool_facts _ Hrep Hnn Hmax) as (Hg & _ & _ & Eg & _ & Hall).
  pose proof (cycle_period (servers b) Hrep Hpos Hne) as Eperiod.
  fold g in Eperiod, Eg. fold period in Eperiod.
  assert (cycle_start (servers b) b) as Hstart by (split; [done|by left]).
  destruct (cycles_calls (servers b) Hrep Hpos Hne k b Hstart)
    as (sel0 & b0 & Hk & Hstart0).
  destruct (cycle_calls (servers b) Hrep Hpos Hne b0 Hstart0) as [Hcycle _].
  rewrite Eperiod in Hk, Hcycle.
  eexists sel0, b0, _, _. split_and!; [exact Hk|exact Hcycle|done|].
  intros i s Hs.
  destruct (max_multiple (servers b) Hrep Hpos Hne) as [EM _].
  destruct (server_at_elem _ _ _ Hs) as [Hin _].
  destruct (Hall s Hin) as [Hd Hw].
  rewrite EM at 1. rewrite (passes_count _ _ _ i s Hs) by (done || lia).
  rewrite <- Eg. destruct Hd as [t Ht].
  rewrite Ht in Hw |- *. rewrite Z.div_mul by lia.
  revert EM Hw. generalize (Z.to_nat (maxWeight_of (servers b) / weightGcd_of (servers b))).
  intros Qn EM Hw. nia.
Qed.

(** C5 (as amended). Termination bound: on every balancer a program can hold
    whose weights are all non-negative and whose maximum weight is strictly
    positive, the selection loop of [next] returns a server within at most
    [poolSize] turns. *)
Theorem next_returns_within_pool_size {Handler Updater : Type}
    (b : WRRLoadBalancer Handler Updater) :
  reachable b -> representable (servers b) -> nonneg_pool (servers b) ->
  0 < maxWeight b ->
  exists srv b',
    next_loop (length (servers b)) (maxWeight b) (weightGcd b) b = Done (srv, b')
    /\ next (length (servers b)) b = Done (inl srv, b').
Proof.
  intros Hreach Hrep Hnn Hmax.
  pose proof (reachable_rotation_ok b Hreach Hrep Hnn) as Hok.
  destruct (next_loop_bound (servers b) Hrep Hnn Hmax b eq_refl Hok)
    as (srv & b' & Hloop).
  exists srv, b'. split; [done|].
  rewrite (next_on_pool (servers b)) by done. by rewrite Hloop.
Qed.

(** C7 (as amended). Zero-weight entries are disabled but tolerated: on every
    balancer a program can hold whose weights are all non-negative and
    include a strictly positive one, [next] returns no error, whatever the
    number of zero-weight entries; it returns a server within one round of
    the pool, and a server it returns has a strictly positive weight. *)
Theorem zero_weight_never_selected {Handler Updater : Type}
    (b : WRRLoadBalancer Handler Updater) :
  reachable b -> representable (servers b) -> nonneg_pool (servers b) ->
  (exists s, s ∈ servers b /\ 0 < weight s) ->
  (exists srv b', next (length (servers b)) b = Done (inl srv, b'))
  /\ forall fuel r b', next fuel b = Done (r, b') ->
       exists srv, r = inl srv /\ srv ∈ servers b /\ 0 < weight srv.
Proof.
  intros Hreach Hrep Hnn (s & Hs & Hw).
  pose proof (maxWeight_of_upper _ _ Hs) as Hup.
  assert (0 < maxWeight b) as Hmax by (unfold maxWeight; lia).
  split.
  - destruct (next_returns_within_pool_size b) as (srv & b' & _ & Hn); eauto.
  - intros fuel r b' Hnext.
    rewrite (next_on_pool (servers b)) in Hnext by done.
    destruct (next_loop _ _ _ _) as [[srv b'']| |] eqn:Hloop; try done.
    injection Hnext as <- <-. exists srv. split; [done|].
    pose proof (reachable_rotation_ok b Hreach Hrep Hnn) as Hok.
    destruct (next_loop_result _ Hrep Hnn Hmax _ _ _ _ eq_refl Hok Hloop)
      as (_ & _ & _ & _ & Hat & Hcw).
    apply server_at_elem in Hat as [Hin _]. split; [done|lia].
Qed.

(** C6 (as amended). GCD reduction: two pools of non-negative weights, the
    weights of the first a common positive multiple of those of the second,
    started at the same index with the current weight at 0 (as a freshly
    constructed balancer has it), stop at the same index on every successive
    call of [next], and fail or run out of turns together. *)
Theorem scaled_pool_same_selections {Handler Updater : Type} (k : Z)
    (b1 b2 : WRRLoadBalancer Handler Updater) :
  0 < k -> nonneg_pool (servers b2) -> representable (servers b1) ->
  servers b1 = scale k (servers b2) -> index b1 = index b2 ->
  currentWeight b1 = 0 -> currentWeight b2 = 0 ->
  forall fuel n : nat,
    picked (selections fuel n b1) = picked (selections fuel n b2).
Proof.
  intros Hk Hnn Hrep Hs Hi Hc1 Hc2 fuel n.
  apply (selections_scaled k Hk); try done; lia.
Qed.

(** C10. Frame effect of selection: a call of [next] that returns changes
    nothing but [index] and [currentWeight]; the servers, the status map and
    the updaters are as before, and a call that returns an error leaves the
    whole balancer as it was. *)
Theorem next_frame_effect {Handler Updater : Type} (fuel : nat)
    (b b' : WRRLoadBalancer Handler Updater) (r : server Handler + string) :
  next fuel b = Done (r, b') ->
  b' = Balancer (servers b) (currentWeight b') (index b') (status b) (updaters b)
  /\ (forall e, r = inr e -> b' = b).
Proof.
  intros Hnext. apply next_frame in Hnext as (Es & Est & Eu & Herr).
  split; [|done]. rewrite <- Es, <- Est, <- Eu. apply balancer_eta.
Qed.

(** C9. Dispatch: when [next] returns an error, [ServeTCP] logs it, closes
    the connection and forwards it to no handler, after that one call of
    [next]; when [next] returns a server, [ServeTCP] forwards the connection
    to the handler of that server and does not close it. *)
Theorem ServeTCP_dispatch {Handler Conn Updater Ctx : Type} (fuel : nat)
    (b : WRRLoadBalancer Handler Updater) (conn : Conn) :
  (forall err b', next fuel b = Done (inr err, b') ->
     exists tr, ServeTCP (Ctx:=Ctx) fuel b conn = Done (tr, b')
       /\ error_logs tr = [err] /\ closes tr = [conn] /\ forwards tr = []
       /\ (err = EmptyPoolError \/ err = AllZeroWeightError) /\ b' = b)
  /\ (forall srv b', next fuel b = Done (inl srv, b') ->
        exists tr, ServeTCP (Ctx:=Ctx) fuel b conn = Done (tr, b')
          /\ forwards tr = [(handler srv, conn)] /\ closes tr = []
          /\ error_logs tr = []).
Proof.
  split.
  - intros err b' Hnext. unfold ServeTCP. rewrite Hnext.
    eexists. split_and!; try done.
    + apply next_Done in Hnext
        as [(_ & [= ->] & _)|[(_ & _ & [= ->] & _)|(_ & _ & ? & [=] & _)]]; eauto.
    + apply next_frame in Hnext as (_ & _ & _ & Herr). by eapply Herr.
  - intros srv b' Hnext. unfold ServeTCP. rewrite Hnext. by eexists.
Qed.

Lemma updates_of_updaters {Handler Conn Updater Ctx : Type}
    (ups : list Updater) (up : bool) :
  updates (Handler:=Handler) (Conn:=Conn) (Ctx:=Ctx)
    (map (fun fn => Update fn up) ups)
  = (fun fn => (fn, up)) <$> ups.
Proof. induction ups as [|fn ups IH]; [done|]. simpl. by f_equal. Qed.

(** C8. Status idempotence: reporting for a child the value its entry holds
    changes nothing and calls no updater; updaters are called only when the
    stored flag flips; and after any call that returns, the same call again
    changes nothing and calls no updater. *)
Theorem SetStatus_idempotent {Handler Conn Updater Ctx : Type} (ctx : Ctx)
    (childName : string) (up : bool) (b : WRRLoadBalancer Handler Updater)
    (cells : gmap loc bool) :
  (forall m l, status b = Some m -> m !! childName = Some l ->
     cells !! l = Some up ->
     exists tr, SetStatus (Handler:=Handler) (Conn:=Conn) ctx childName up b cells
                = Done (tr, b, cells)
                /\ updates tr = [])
  /\ (forall tr b' cells',
        SetStatus (Handler:=Handler) (Conn:=Conn) ctx childName up b cells
        = Done (tr, b', cells') ->
        (updates tr ≠ [] ->
           exists m l, status b = Some m /\ m !! childName = Some l
             /\ cells !! l = Some (negb up) /\ cells' !! l = Some up
             /\ updates tr = (fun fn => (fn, up)) <$> updaters b)
        /\ exists tr2,
             SetStatus (Handler:=Handler) (Conn:=Conn) ctx childName up b' cells'
             = Done (tr2, b', cells')
             /\ updates tr2 = []).
Proof.
  split.
  - intros m l Hst Hm Hl. unfold SetStatus. rewrite Hst. simpl. rewrite Hm, Hl.
    rewrite bool_decide_eq_false_2 by by destruct up. by eexists.
  - intros tr b' cells'. unfold SetStatus.
    destruct (status b) as [m|] eqn:Hst; simpl; [|done].
    destruct (m !! childName) as [l|] eqn:Hm.
    + destruct (cells !! l) as [stored|] eqn:Hl; [|done].
      case_bool_decide as Hflip.
      * intros [= <- <- <-]. split.
        { intros _. exists m, l. rewrite lookup_insert_eq. subst stored.
          split_and!; try done. simpl. apply updates_of_updaters. }
        rewrite Hst. simpl. rewrite Hm, lookup_insert_eq.
        rewrite bool_decide_eq_false_2 by by destruct up. by eexists.
      * intros [= <- <- <-]. split; [done|].
        rewrite Hst. simpl. rewrite Hm, Hl.
        rewrite bool_decide_eq_false_2 by done. by eexists.
    + intros [= <- <- <-]. split; [done|]. simpl.
      rewrite !lookup_insert_eq.
      rewrite bool_decide_eq_false_2 by by destruct up. by eexists.
Qed.

(** Where the status map has been allocated, the first report for a child
    stores the reported value in a new cell and calls no updater. *)
Lemma SetStatus_first_report {Handler Conn Updater Ctx : Type} (ctx : Ctx)
    (childName : string) (up : bool) (b : WRRLoadBalancer Handler Updater)
    (cells : gmap loc bool) (m : gmap string loc) :
  status b = Some m -> m !! childName = None ->
  exists tr s,
    SetStatus (Handler:=Handler) (Conn:=Conn) ctx childName up b cells
    = Done (tr, set_status b (<[childName := s]> m), <[s := up]> cells)
    /\ cells !! s = None /\ updates tr = [].
Proof.
  intros Hst Hm. unfold SetStatus. rewrite Hst. simpl. rewrite Hm.
  eexists _, _. split_and!; [done| |done].
  apply not_elem_of_dom. apply is_fresh.
Qed.

(** C3. First-report baseline, on the code: a balancer that comes from
    [NewWRRLoadBalancer] has no status map, and the first [SetStatus] on it
    panics where it stores the new cell, whatever the child and the value. *)
Theorem SetStatus_on_new_balancer_panics {Handler Conn Updater Ctx : Type}
    (ctx : Ctx) (childName : string) (up : bool) (cells : gmap loc bool) :
  SetStatus (Conn:=Conn) ctx childName up
    (NewWRRLoadBalancer (Handler:=Handler) (Updater:=Updater)) cells
  = Panic.
Proof. done. Qed.

(** C1 (as amended). For a pool of two entries with weights [3,1], the
    weight-3 entry A first, the four calls of [next] of one weight-sum cycle
    on a freshly constructed balancer return A, A, A, B: the current weight
    steps 3, 2, 1 and B, of weight 1, is heavy enough in the last pass only.
    The next four calls return the same again. *)
Theorem weights_3_1_cycle {Handler Updater : Type} (hA hB : Handler) :
  let A := Server hA 3 in
  let B := Server hB 1 in
  let b := AddWeightServer
             (AddWeightServer (NewWRRLoadBalancer (Updater:=Updater)) hA (Some 3))
             hB (Some 1) in
  let b' := Balancer [A; B] 1 1 None [] in
  selections 2 4 b = Done (Some [(0, A); (0, A); (0, A); (1, B)], b')
  /\ selections 2 4 b' = Done (Some [(0, A); (0, A); (0, A); (1, B)], b').
Proof. split; vm_compute; reflexivity. Qed.

(** C2, on the code: a pool whose only weight is negative is not empty and
    its maximum weight is not strictly positive, yet [next] returns no
    error: [maxWeight] answers -1, which passes the test against 0, and the
    loop never finds a server, however many turns it is given. *)
Theorem negative_pool_no_error (fuel : nat) :
  let b := pool [("A"%string, -2)] in
  servers b ≠ [] /\ maxWeight b = -1 /\ next fuel b = Timeout.
Proof.
  intros b. split; [done|]. split; [done|].
  unfold next. change (len (servers b) =? 0) with false.
  change (maxWeight b =? 0) with false. cbv iota.
  change (maxWeight b) with (-1). change (weightGcd b) with (-2).
  assert (forall fuel (b0 : WRRLoadBalancer string string),
            servers b0 = servers b -> next_loop fuel (-1) (-2) b0 = Timeout)
    as Hspin; [|by rewrite Hspin].
  clear fuel. induction fuel as [|fuel IH]; intros b0 Hs; [done|].
  pose proof (advance_servers (-1) (-2) b0) as Es.
  assert (index (advance (-1) (-2) b0) = 0
          /\ (0 < currentWeight (advance (-1) (-2) b0)
              \/ currentWeight (advance (-1) (-2) b0) = -1)) as [Ei Ec].
  { unfold advance. simpl. rewrite Hs. change (len (servers b)) with 1.
    rewrite Z.rem_1_r. simpl. cases_Z; simpl; split; lia. }
  simpl. rewrite Es, Hs, Ei. simpl.
  destruct (Z.leb_spec (currentWeight (advance (-1) (-2) b0)) (-2)); [lia|].
  apply IH. by rewrite Es.
Qed.

(** * Instances, on concrete pools *)

Lemma reachable_pool (ws : list (string * Z)) : reachable (pool ws).
Proof.
  unfold pool. generalize (@NewWRRLoadBalancer string string) (@reach_new string string).
  induction ws as [|hw ws IH]; intros b Hb; simpl; [done|].
  apply IH. by apply reach_add.
Qed.

(** The selections of [5,1,1] over 700 calls are in the ratio 5:1:1. *)
Lemma weights_5_1_1_over_700 :
  exists sel b',
    selections 3 700 (pool [("A", 5); ("B", 1); ("C", 1)]%string)
    = Done (Some sel, b')
    /\ times_selected 0 sel = 500
    /\ times_selected 1 sel = 100
    /\ times_selected 2 sel = 100.
Proof.
  eexists _, _. split; [vm_compute; reflexivity|].
  split_and!; vm_compute; reflexivity.
Qed.

Lemma weighted_fairness_witness :
  let b := pool [("A", 5); ("B", 1); ("C", 1)]%string in
  exists sel0 b0 sel b1,
    selections 3 (100 * 7) b = Done (Some sel0, b0)
    /\ selections 3 7 b0 = Done (Some sel, b1)
    /\ length sel = 7%nat
    /\ forall i s, server_at (servers b) i = Some s ->
                   times_selected i sel = weight s / 1.
Proof.
  intros b.
  refine (weighted_fairness b _ _ _ _ 100%nat).
  - solve_representable.
  - repeat constructor.
  - reflexivity.
  - reflexivity.
Defined.

(** C1, the claim on the code: the four calls return A, A, A, B. *)
Lemma interleaving_counterexample :
  exists b',
    selections 2 4 (pool [("A", 3); ("B", 1)]%string)
    = Done (Some [(0, Server "A" 3); (0, Server "A" 3); (0, Server "A" 3);
                  (1, Server "B" 1)]%string, b').
Proof. eexists. vm_compute. reflexivity. Qed.

(** C5, the claim on the code: after two selections on the weights [-2,4]
    the pool is not empty and its maximum weight is 4, and the loop does not
    return within 2 turns, nor within 1000: the gcd is -2 and the current
    weight climbs past every weight. *)
Lemma termination_bound_counterexample :
  let b := state [Server "A" (-2); Server "B" 4]%string 4 1 in
  selections 2 2 (pool [("A", -2); ("B", 4)]%string)
  = Done (Some [(1, Server "B" 4); (1, Server "B" 4)]%string, b)
  /\ reachable b
  /\ servers b ≠ [] /\ maxWeight b = 4 /\ weightGcd b = -2
  /\ next_loop (length (servers b)) (maxWeight b) (weightGcd b) b = Timeout
  /\ next 1000 b = Timeout.
Proof.
  intros b.
  assert (next 2 (pool [("A", -2); ("B", 4)]%string)
          = Done (inl (Server "B"%string 4),
                  state [Server "A" (-2); Server "B" 4]%string 2 1))
    as H1 by (vm_compute; reflexivity).
  assert (next 2 (state [Server "A" (-2); Server "B" 4]%string 2 1)
          = Done (inl (Server "B"%string 4), b))
    as H2 by (vm_compute; reflexivity).
  split_and!; try (vm_compute; reflexivity); [|done].
  eapply reach_next; [|exact H2].
  eapply reach_next; [|exact H1]. apply reachable_pool.
Qed.

Lemma next_returns_within_pool_size_witness :
  let b := pool [("A", 3); ("B", 0); ("C", 1)]%string in
  exists srv b',
    next_loop (length (servers b)) (maxWeight b) (weightGcd b) b = Done (srv, b')
    /\ next (length (servers b)) b = Done (inl srv, b').
Proof.
  intros b.
  refine (next_returns_within_pool_size b _ _ _ _).
  - apply reachable_pool.
  - solve_representable.
  - solve_nonneg.
  - reflexivity.
Defined.

(** C6, the claim on the code: the weights [4,2] after two selections and
    the weights [2,1] after one are in the same iteration state, index 0 and
    current weight 2, and the next call stops at index 1 on the first and at
    index 0 on the second. *)
Lemma equal_state_counterexample :
  let b1 := state [Server "A" 4; Server "B" 2]%string 2 0 in
  let b2 := state [Server "A" 2; Server "B" 1]%string 2 0 in
  (exists sel, selections 2 2 (pool [("A", 4); ("B", 2)]%string)
               = Done (Some sel, b1))
  /\ (exists sel, selections 2 1 (pool [("A", 2); ("B", 1)]%string)
                  = Done (Some sel, b2))
  /\ servers b1 = scale 2 (servers b2)
  /\ index b1 = index b2 /\ currentWeight b1 = currentWeight b2
  /\ picked (selections 2 1 b1) = Done (Some [1])
  /\ picked (selections 2 1 b2) = Done (Some [0]).
Proof.
  intros b1 b2. split_and!; try (vm_compute; reflexivity);
    eexists; vm_compute; reflexivity.
Qed.

Lemma scaled_pool_same_selections_witness :
  picked (selections 2 7 (pool [("A", 4); ("B", 2)]%string))
  = picked (selections 2 7 (pool [("A", 2); ("B", 1)]%string)).
Proof.
  refine (scaled_pool_same_selections 2 _ _ _ _ _ _ _ _ _ 2%nat 7%nat).
  - lia.
  - solve_nonneg.
  - solve_representable.
  - reflexivity.
  - reflexivity.
  - reflexivity.
  - reflexivity.
Defined.

(** All weights negative, the second large enough for the current weight to
    wrap around in the second pass: [next] returns the first server and
    leaves the current weight at -1. *)
Lemma negative_pool_selects :
  next 3 (pool [("A", -1); ("B", -4611686018427387904)]%string)
  = Done (inl (Server "A"%string (-1)),
          state [Server "A" (-1); Server "B" (-4611686018427387904)]%string (-1) 0).
Proof. vm_compute. reflexivity. Qed.

(** C7, the claim on the code: two servers of weights 0 and 7 are added to
    the balancer that [negative_pool_selects] leaves; the pool has a
    strictly positive weight, and [next] returns the server of weight 0. *)
Lemma zero_weight_counterexample :
  let b0 := state [Server "A" (-1); Server "B" (-4611686018427387904)]%string (-1) 0 in
  let b := AddWeightServer (AddWeightServer b0 "C"%string (Some 0))
                           "D"%string (Some 7) in
  reachable b /\ representable (servers b)
  /\ Server "D"%string 7 ∈ servers b
  /\ exists b', next (length (servers b)) b = Done (inl (Server "C"%string 0), b').
Proof.
  intros b0 b. split_and!.
  - do 2 apply reach_add.
    eapply reach_next; [apply reachable_pool|apply negative_pool_selects].
  - solve_representable.
  - unfold b, AddWeightServer. simpl. set_solver.
  - eexists. vm_compute. reflexivity.
Qed.

Lemma zero_weight_never_selected_witness :
  let b := pool [("A", 3); ("B", 0); ("C", 1)]%string in
  (exists srv b', next (length (servers b)) b = Done (inl srv, b'))
  /\ forall fuel r b', next fuel b = Done (r, b') ->
       exists srv, r = inl srv /\ srv ∈ servers b /\ 0 < weight srv.
Proof.
  intros b.
  refine (zero_weight_never_selected b _ _ _ _).
  - apply reachable_pool.
  - solve_representable.
  - solve_nonneg.
  - exists (Server "A"%string 3). split; [|reflexivity].
    apply list_elem_of_here.
Defined.

Lemma next_frame_effect_witness :
  let b := pool [("A", 3); ("B", 1)]%string in
  let b' := state [Server "A" 3; Server "B" 1]%string 3 0 in
  b' = Balancer (servers b) (currentWeight b') (index b') (status b) (updaters b)
  /\ (forall e, (inl (Server "A"%string 3) : server string + string) = inr e ->
                b' = b).
Proof.
  intros b b'.
  refine (next_frame_effect 2 b b' (inl (Server "A"%string 3)) _).
  vm_compute. reflexivity.
Defined.

Lemma ServeTCP_dispatch_witness :
  (exists tr,
     ServeTCP (Ctx:=unit) 1 (pool []) "conn"%string = Done (tr, pool [])
     /\ error_logs tr = [EmptyPoolError] /\ closes tr = ["conn"%string]
     /\ forwards tr = []
     /\ (EmptyPoolError = EmptyPoolError \/ EmptyPoolError = AllZeroWeightError)
     /\ pool [] = pool [])
  /\ (exists tr,
        ServeTCP (Ctx:=unit) 2 (pool [("A", 3); ("B", 1)]%string) "conn"%string
        = Done (tr, state [Server "A" 3; Server "B" 1]%string 3 0)
        /\ forwards tr = [("A"%string, "conn"%string)] /\ closes tr = []
        /\ error_logs tr = []).
Proof.
  split.
  - refine (proj1 (ServeTCP_dispatch 1 (pool []) "conn"%string) _ _ _).
    reflexivity.
  - refine (proj2 (ServeTCP_dispatch 2 (pool [("A", 3); ("B", 1)]%string)
                     "conn"%string) (Server "A"%string 3) _ _).
    vm_compute. reflexivity.
Defined.

Lemma SetStatus_idempotent_witness :
  let b : WRRLoadBalancer string string :=
    Balancer [] 0 (-1) (Some {["a"%string := 1%positive]}) ["parent"%string] in
  let cells : gmap loc bool := {[1%positive := true]} in
  exists tr,
    SetStatus (Handler:=string) (Conn:=string) tt "a" true b cells
    = Done (tr, b, cells)
    /\ updates tr = [].
Proof.
  intros b cells.
  refine (proj1 (SetStatus_idempotent tt "a" true b cells)
            {["a"%string := 1%positive]} 1%positive _ _ _).
  - reflexivity.
  - apply lookup_singleton_eq.
  - apply lookup_singleton_eq.
Defined.


(** * Further properties of the code *)

(** ** [gcd], [maxWeight], [weightGcd] *)

Lemma gcd_loop_magnitude (fuel : nat) (a b r : Z) :
  gcd_loop fuel a b = Some r -> Z.abs r = Z.gcd a b.
Proof.
  revert a b. induction fuel as [|fuel IH]; intros a b; [done|].
  simpl. destruct (Z.eqb_spec b 0) as [->|Hb0].
  - intros [= <-]. by rewrite Z.gcd_0_r.
  - intros Hr. apply IH in Hr. rewrite Hr.
    rewrite <- (Z.gcd_abs_l b), <- (Z.gcd_abs_r (Z.abs b)), <- Z.rem_abs by done.
    rewrite Z.rem_mod_nonneg by lia.
    rewrite Z.gcd_mod_r, Z.gcd_abs_l, Z.gcd_abs_r. apply Z.gcd_comm.
Qed.

(** X1. [gcd] returns on every pair of operands, of either sign, after at
    most [2 * log2 |b| + 3] tests of its loop condition, and the magnitude of
    what it returns is the greatest common divisor of the operands. *)
Theorem gcd_total (a b : Z) :
  exists r,
    gcd_loop (gcd_fuel b) a b = Some r /\ gcd a b = r /\ Z.abs r = Z.gcd a b.
Proof.
  destruct (gcd_fuel_enough a b) as [r Hr]. exists r.
  split; [done|]. split; [unfold gcd; by rewrite Hr|].
  by eapply gcd_loop_magnitude.
Qed.

(** X2. On non-negative operands [gcd] returns the greatest common divisor
    itself: a non-negative common divisor that every common divisor
    divides. *)
Theorem gcd_nonneg_greatest (a b : Z) :
  0 <= a -> 0 <= b ->
  0 <= gcd a b /\ (gcd a b | a) /\ (gcd a b | b)
  /\ forall d, (d | a) -> (d | b) -> (d | gcd a b).
Proof.
  intros Ha Hb. rewrite gcd_nonneg by done. split_and!.
  - apply Z.gcd_nonneg.
  - apply Z.gcd_divide_l.
  - apply Z.gcd_divide_r.
  - intros d. apply Z.gcd_greatest.
Qed.

(** X3. [maxWeight] is the greatest weight of the pool, but never less than
    -1: it bounds every weight, and it is either -1 (no server, or negative
    weights only) or the weight of a server. *)
Theorem maxWeight_bounds {Handler Updater : Type}
    (b : WRRLoadBalancer Handler Updater) :
  -1 <= maxWeight b
  /\ (forall s, s ∈ servers b -> weight s <= maxWeight b)
  /\ (maxWeight b = -1 \/ exists s, s ∈ servers b /\ weight s = maxWeight b).
Proof.
  unfold maxWeight. split_and!.
  - apply maxWeight_of_lower.
  - apply maxWeight_of_upper.
  - destruct (Z.eq_dec (maxWeight_of (servers b)) (-1)) as [|Hne]; [by left|].
    right. apply maxWeight_of_attained.
    pose proof (maxWeight_of_lower (servers b)). lia.
Qed.

Lemma gcd_of_weights_greatest {Handler : Type} (l : list (server Handler)) d :
  (forall s, s ∈ l -> (d | weight s)) -> (d | gcd_of_weights l).
Proof.
  induction l as [|s l IH]; intros Hd; simpl; [apply Z.divide_0_r|].
  apply Z.gcd_greatest.
  - apply Hd. by left.
  - apply IH. intros s' Hs'. apply Hd. by right.
Qed.

(** X4. On a non-empty pool of non-negative weights [weightGcd] is the
    greatest common divisor of the weights: it is not negative, it divides
    every weight, and every common divisor of the weights divides it. *)
Theorem weightGcd_greatest {Handler Updater : Type}
    (b : WRRLoadBalancer Handler Updater) :
  servers b ≠ [] -> nonneg_pool (servers b) ->
  0 <= weightGcd b
  /\ (forall s, s ∈ servers b -> (weightGcd b | weight s))
  /\ (forall d, (forall s, s ∈ servers b -> (d | weight s)) -> (d | weightGcd b)).
Proof.
  intros Hne Hnn. unfold weightGcd. rewrite weightGcd_of_nonneg by done.
  split_and!.
  - apply gcd_of_weights_nonneg.
  - apply gcd_of_weights_divide.
  - apply gcd_of_weights_greatest.
Qed.

(** X5. [weightGcd] uses -1 for "no server seen yet": servers whose running
    gcd is -1 (a first weight of -1, or weights such as -3 and 2) are
    forgotten, and the result is that of the servers after them alone. *)
Theorem weightGcd_restarts {Handler : Type} (l1 l2 : list (server Handler)) :
  weightGcd_of l1 = -1 -> weightGcd_of (l1 ++ l2) = weightGcd_of l2.
Proof.
  unfold weightGcd_of. intros H1. by rewrite fold_left_app, H1.
Qed.

(** ** [next] on any pool *)

(** X6. The errors of [next], as the code returns them: a call fails exactly
    when the pool is empty, or is not empty and [maxWeight] is 0, that is no
    weight is positive and some weight is 0; it then fails before the loop
    (no turn is needed) and leaves the balancer as it was. *)
Theorem next_error_iff {Handler Updater : Type} (fuel : nat)
    (b b' : WRRLoadBalancer Handler Updater) (e : string) :
  (next fuel b = Done (inr e, b')
   <-> b' = b
       /\ ((servers b = [] /\ e = EmptyPoolError)
           \/ (servers b ≠ [] /\ maxWeight b = 0 /\ e = AllZeroWeightError)))
  /\ (maxWeight b = 0
      <-> (forall s, s ∈ servers b -> weight s <= 0)
          /\ exists s, s ∈ servers b /\ weight s = 0).
Proof.
  split; split.
  - intros Hnext. apply next_Done in Hnext
      as [(? & [= ->] & ->)|[(? & ? & [= ->] & ->)|(_ & _ & ? & [=] & _)]]; eauto.
  - intros [-> [[Hs ->]|(Hs & Hmax & ->)]]; unfold next, len.
    + by rewrite Hs.
    + destruct (servers b) eqn:E; [done|]. rewrite <- E. simpl.
      destruct (Z.eqb_spec (Z.of_nat (length (servers b))) 0) as [E0|_].
      { rewrite E in E0. simpl in E0. lia. }
      by rewrite Hmax.
  - intros Hmax. split.
    + intros s Hs. rewrite <- Hmax. by apply maxWeight_of_upper.
    + unfold maxWeight in Hmax. rewrite <- Hmax.
      apply maxWeight_of_attained. lia.
  - intros [Hle (s & Hs & Hw)]. unfold maxWeight in *.
    pose proof (maxWeight_of_upper _ _ Hs).
    destruct (maxWeight_of_attained (servers b)) as (s' & Hs' & Hw'); [lia|].
    specialize (Hle s' Hs'). lia.
Qed.

Lemma server_at_app_l {Handler : Type} (l : list (server Handler)) s i :
  i < len l -> server_at (l ++ [s]) i = server_at l i.
Proof.
  unfold server_at, len. intros Hi. destruct (Z.ltb_spec i 0); [done|].
  apply lookup_app_l. lia.
Qed.

(** What holds of the position between two calls, whatever the weights. *)
Lemma next_loop_position {Handler Updater : Type} (fuel : nat) (M g : Z)
    (b : WRRLoadBalancer Handler Updater) :
  1 <= len (servers b) <= int_max -> -1 <= index b < len (servers b) ->
  match next_loop fuel M g b with
  | Done (srv, b') =>
      0 <= index b' < len (servers b)
      /\ server_at (servers b) (index b') = Some srv
      /\ currentWeight b' <= weight srv
  | Panic => False
  | Timeout => True
  end.
Proof.
  revert b. induction fuel as [|fuel IH]; intros b Hlen Hi; [done|].
  destruct (advance_spec M g b Hlen Hi) as [Ei _].
  pose proof (advance_servers M g b) as Es.
  assert (0 <= index (advance M g b) < len (servers b)) as Hi'
    by (rewrite Ei; cases_Z; lia).
  simpl. rewrite Es.
  destruct (server_at_Some (servers b) _ Hi') as [srv Hsrv]. rewrite Hsrv.
  destruct (Z.leb_spec (currentWeight (advance M g b)) (weight srv)); [done|].
  specialize (IH (advance M g b)). rewrite Es in IH. apply IH; lia.
Qed.

Lemma reachable_position {Handler Updater : Type}
    (b : WRRLoadBalancer Handler Updater) :
  reachable b -> len (servers b) <= int_max ->
  -1 <= index b < len (servers b)
  /\ (0 <= index b ->
      exists srv, server_at (servers b) (index b) = Some srv
                  /\ currentWeight b <= weight srv).
Proof.
  induction 1 as [|b h w _ IH|fuel b r b' _ IH Hnext|b st ups _ IH]; intros Hlen.
  - unfold len. simpl. lia.
  - unfold AddWeightServer, len in *. simpl in *.
    rewrite length_app in *. simpl in *.
    destruct IH as [Hi Hsel]; [lia|]. split; [lia|].
    intros H0. destruct (Hsel H0) as (srv & Hsrv & Hcw). exists srv.
    split; [|done]. rewrite server_at_app_l; [done|]. unfold len. lia.
  - apply next_Done in Hnext
      as [(_ & _ & ->)|[(_ & _ & _ & ->)|(Hne & _ & srv & _ & Hloop)]];
      [by apply IH..|].
    pose proof (next_loop_frame _ _ _ _ _ _ Hloop) as (Es & _ & _).
    rewrite Es in Hlen |- *. destruct (IH Hlen) as [Hi _].
    assert (1 <= len (servers b)).
    { unfold len. destruct (servers b); [done|]. simpl. lia. }
    pose proof (next_loop_position fuel (maxWeight b) (weightGcd b) b
                  ltac:(lia) Hi) as Hpos.
    rewrite Hloop in Hpos. destruct Hpos as (Hi' & Hsrv & Hcw).
    split; [lia|]. eauto.
  - simpl in *. by apply IH.
Qed.

(** X7. Memory safety of the selection: on every balancer a program can
    hold, whatever its weights, [next] never indexes the pool out of range;
    a server it returns is the one at [index] after the call, a position of
    the pool, and its weight is at least [currentWeight]. *)
Theorem next_never_panics {Handler Updater : Type} (fuel : nat)
    (b : WRRLoadBalancer Handler Updater) :
  reachable b -> len (servers b) <= int_max ->
  next fuel b ≠ Panic
  /\ forall srv b', next fuel b = Done (inl srv, b') ->
       0 <= index b' < len (servers b)
       /\ server_at (servers b) (index b') = Some srv
       /\ currentWeight b' <= weight srv.
Proof.
  intros Hreach Hlen. destruct (reachable_position b Hreach Hlen) as [Hi _].
  unfold next. destruct (Z.eqb_spec (len (servers b)) 0) as [|Hne]; [done|].
  destruct (Z.eqb_spec (maxWeight b) 0); [done|].
  assert (1 <= len (servers b)) by (unfold len in *; lia).
  pose proof (next_loop_position fuel (maxWeight b) (weightGcd b) b
                ltac:(lia) Hi) as Hpos.
  destruct (next_loop _ _ _ _) as [[srv b'']| |]; [|done..].
  split; [done|]. by intros ? ? [= <- <-].
Qed.

(** X8. The rotation state between two calls, on non-negative weights: either
    nothing has been selected yet ([index] -1, [currentWeight] 0), or [index]
    is a position of the pool, [currentWeight] is positive and at most the
    maximum weight, and the server at [index] weighs at least
    [currentWeight]. *)
Theorem rotation_invariant {Handler Updater : Type}
    (b : WRRLoadBalancer Handler Updater) :
  reachable b -> representable (servers b) -> nonneg_pool (servers b) ->
  (index b = -1 /\ currentWeight b = 0)
  \/ (0 <= index b < len (servers b)
      /\ 0 < currentWeight b <= maxWeight b
      /\ exists srv, server_at (servers b) (index b) = Some srv
                     /\ currentWeight b <= weight srv).
Proof.
  intros Hreach Hrep Hnn.
  destruct (reachable_rotation_ok b Hreach Hrep Hnn) as [?|[Hi Hc]]; [by left|].
  right. destruct Hrep as [_ Hlen].
  destruct (reachable_position b Hreach Hlen) as [_ Hsel].
  split_and!; try lia. apply Hsel. lia.
Qed.

(** X9. Equal weights give plain round robin: on a pool whose weights are all
    the same positive number (as [AddServer] alone builds it, with weight 1)
    every call of [next] returns after one turn, with the server at the
    position after the last one, wrapping around at the end of the pool. *)
Theorem equal_weights_round_robin {Handler Updater : Type} (w : Z)
    (b : WRRLoadBalancer Handler Updater) :
  reachable b -> representable (servers b) -> servers b ≠ [] -> 0 < w ->
  Forall (fun s => weight s = w) (servers b) ->
  exists srv b',
    next 1 b = Done (inl srv, b')
    /\ index b' = (if index b + 1 <? len (servers b) then index b + 1 else 0)
    /\ server_at (servers b) (index b') = Some srv.
Proof.
  intros Hreach Hrep Hne Hw Heq.
  assert (nonneg_pool (servers b)) as Hnn.
  { eapply Forall_impl; [exact Heq|]. simpl. lia. }
  assert (maxWeight_of (servers b) = w) as EM.
  { destruct (maxWeight_of_attained (servers b)) as (s & Hs & <-).
    - by apply nonneg_pool_maxWeight.
    - rewrite Forall_forall in Heq. by apply Heq. }
  assert (0 < maxWeight_of (servers b)) as Hmax by lia.
  pose proof (reachable_rotation_ok b Hreach Hrep Hnn) as Hok.
  destruct (advance_ok _ Hrep Hnn Hmax b eq_refl Hok) as (Hi' & Hc' & _).
  destruct (pool_facts _ Hrep Hnn Hmax) as (_ & _ & Hlen & _).
  destruct (advance_spec (maxWeight_of (servers b)) (weightGcd_of (servers b)) b)
    as [Ei _]; [done| |].
  { destruct Hok as [[-> _]|[? _]]; lia. }
  destruct (server_at_Some (servers b) _ Hi') as [srv Hsrv].
  exists srv, (advance (maxWeight_of (servers b)) (weightGcd_of (servers b)) b).
  split_and!; [|done..].
  rewrite (next_on_pool (servers b)) by done. simpl.
  rewrite advance_servers, Hsrv.
  apply server_at_elem in Hsrv as [Hin _].
  rewrite Forall_forall in Heq. rewrite (Heq srv Hin).
  destruct (Z.leb_spec (currentWeight (advance (maxWeight_of (servers b))
                                          (weightGcd_of (servers b)) b)) w);
    [done|lia].
Qed.

(** ** [ServeTCP] *)

(** X10. A usable pool drops no connection: on every balancer a program can
    hold whose weights are non-negative with a positive one, [ServeTCP]
    forwards the connection, once, to the handler of a server of strictly
    positive weight, and neither closes it nor logs an error. *)
Theorem ServeTCP_forwards {Handler Conn Updater Ctx : Type}
    (b : WRRLoadBalancer Handler Updater) (conn : Conn) :
  reachable b -> representable (servers b) -> nonneg_pool (servers b) ->
  0 < maxWeight b ->
  exists srv b',
    ServeTCP (Ctx:=Ctx) (length (servers b)) b conn
    = Done ([Forward (handler srv) conn], b')
    /\ srv ∈ servers b /\ 0 < weight srv.
Proof.
  intros Hreach Hrep Hnn Hmax.
  pose proof (reachable_rotation_ok b Hreach Hrep Hnn) as Hok.
  destruct (next_loop_bound (servers b) Hrep Hnn Hmax b eq_refl Hok)
    as (srv & b' & Hloop).
  exists srv, b'. unfold ServeTCP.
  rewrite (next_on_pool (servers b)) by done. rewrite Hloop.
  split; [done|].
  destruct (next_loop_result _ Hrep Hnn Hmax _ _ _ _ eq_refl Hok Hloop)
    as (_ & _ & _ & _ & Hat & Hcw).
  apply server_at_elem in Hat as [Hin _]. split; [done|lia].
Qed.

(** X11. A pool without a usable server drops the connection at once: when
    the pool is empty or its maximum weight is 0, [ServeTCP] logs the error
    and closes the connection without a single turn of the loop, forwards
    nothing and leaves the balancer as it was. *)
Theorem ServeTCP_drops {Handler Conn Updater Ctx : Type} (fuel : nat)
    (b : WRRLoadBalancer Handler Updater) (conn : Conn) :
  servers b = [] \/ maxWeight b = 0 ->
  exists err,
    ServeTCP (Ctx:=Ctx) fuel b conn
    = Done ([LogError err "Error during load balancing"; Close conn], b)
    /\ err = (if decide (servers b = []) then EmptyPoolError
              else AllZeroWeightError).
Proof.
  intros Hbad. unfold ServeTCP, next, len.
  destruct (decide (servers b = [])) as [E|Hne].
  - rewrite E. simpl. eauto.
  - destruct Hbad as [|Hmax]; [done|].
    destruct (Z.eqb_spec (Z.of_nat (length (servers b))) 0) as [E0|_].
    { destruct (servers b); [done|]. simpl in E0. lia. }
    rewrite Hmax. simpl. eauto.
Qed.

(** ** [SetStatus] *)


(** X13. What [SetStatus] stores can be read back: after a call that
    returns, the child has an entry, its cell holds the reported value, and
    every entry of the map still points to a cell when that was so before. *)
Theorem SetStatus_stores {Handler Conn Updater Ctx : Type} (ctx : Ctx)
    (childName : string) (up : bool) (b b' : WRRLoadBalancer Handler Updater)
    (cells cells' : gmap loc bool) (tr : list (event Handler Conn Updater Ctx)) :
  SetStatus ctx childName up b cells = Done (tr, b', cells') ->
  (exists m' l, status b' = Some m' /\ m' !! childName = Some l
                /\ cells' !! l = Some up)
  /\ ((forall m name l, status b = Some m -> m !! name = Some l ->
         is_Some (cells !! l)) ->
      forall m' name l, status b' = Some m' -> m' !! name = Some l ->
        is_Some (cells' !! l)).
Proof.
  unfold SetStatus. destruct (status b) as [m|] eqn:Hst; simpl; [|done].
  destruct (m !! childName) as [l|] eqn:Hm.
  - destruct (cells !! l) as [stored|] eqn:Hl; [|done].
    case_bool_decide as Hflip; intros [= <- <- <-]; rewrite Hst.
    + split.
      * exists m, l. by rewrite lookup_insert_eq.
      * intros Hall m' name l' [= <-] Hl'.
        destruct (decide (l = l')) as [<-|Hne].
        -- rewrite lookup_insert_eq. eauto.
        -- rewrite lookup_insert_ne by done. by eapply Hall.
    + split.
      * exists m, l. split_and!; try done. rewrite Hl. f_equal.
        destruct stored, up; naive_solver.
      * intros Hall m' name l' [= <-] Hl'. by eapply Hall.
  - intros [= <- <- <-]. simpl. split.
    + eexists _, _. split_and!; [done|apply lookup_insert_eq..].
    + intros Hall m' name l' [= <-] Hl'.
      destruct (decide (fresh (dom cells) = l')) as [<-|Hne].
      * rewrite lookup_insert_eq. eauto.
      * rewrite lookup_insert_ne by done.
        destruct (decide (childName = name)) as [<-|Hname].
        -- rewrite lookup_insert_eq in Hl'. by injection Hl'.
        -- rewrite lookup_insert_ne in Hl' by done. by eapply Hall.
Qed.


(** X15. A flip is propagated: when the child's cell holds the opposite of
    the reported value, [SetStatus] stores the reported value in that cell
    and calls every registered updater once, in registration order, with the
    reported value; the balancer itself is unchanged. *)
Theorem SetStatus_flip_propagates {Handler Conn Updater Ctx : Type} (ctx : Ctx)
    (childName : string) (up : bool) (b : WRRLoadBalancer Handler Updater)
    (cells : gmap loc bool) (m : gmap string loc) (l : loc) :
  status b = Some m -> m !! childName = Some l -> cells !! l = Some (negb up) ->
  exists tr,
    SetStatus (Handler:=Handler) (Conn:=Conn) ctx childName up b cells
    = Done (tr, b, <[l := up]> cells)
    /\ updates tr = (fun fn => (fn, up)) <$> updaters b.
Proof.
  intros Hst Hm Hl. unfold SetStatus. rewrite Hst. simpl. rewrite Hm, Hl.
  rewrite bool_decide_eq_true_2 by done. eexists. split; [done|].
  simpl. apply updates_of_updaters.
Qed.

(** ** [AddWeightServer] *)

(** X16. [AddWeightServer] appends: the new server is at the position after
    the last one, with the weight given or 1 for a nil pointer; every server
    of the pool keeps its position; and the rotation state, the status map
    and the updaters are untouched. *)
Theorem AddWeightServer_appends {Handler Updater : Type}
    (b : WRRLoadBalancer Handler Updater) (h : Handler) (w : option Z) (i : Z) :
  server_at (servers (AddWeightServer b h w)) i
  = (if i =? len (servers b) then Some (Server h (default 1 w))
     else server_at (servers b) i)
  /\ len (servers (AddWeightServer b h w)) = len (servers b) + 1
  /\ index (AddWeightServer b h w) = index b
  /\ currentWeight (AddWeightServer b h w) = currentWeight b
  /\ status (AddWeightServer b h w) = status b
  /\ updaters (AddWeightServer b h w) = updaters b.
Proof.
  unfold AddWeightServer. simpl. split_and!; try done.
  - replace (match w with Some w' => w' | None => 1 end) with (default 1 w)
      by by destruct w.
    destruct (Z.eqb_spec i (len (servers b))) as [->|Hne].
    + rewrite <- (server_at_middle (servers b) []). done.
    + unfold server_at, len in *. destruct (Z.ltb_spec i 0); [done|].
      destruct (decide (Z.to_nat i < length (servers b))%nat).
      * by apply lookup_app_l.
      * rewrite !lookup_ge_None_2; [done|lia|].
        rewrite length_app. simpl. lia.
  - unfold len. rewrite length_app. simpl. lia.
Qed.

(** ** [next] on negative weights *)

(** X17. Negative weights pass the guard of [next]: on a non-empty pool whose
    weights are all negative [maxWeight] is -1, which is not 0, so no call
    of [next] returns an error, whatever the number of turns it is given. *)
Theorem negative_weights_pass_the_guard {Handler Updater : Type}
    (b : WRRLoadBalancer Handler Updater) :
  servers b ≠ [] -> Forall (fun s => weight s < 0) (servers b) ->
  maxWeight b = -1
  /\ forall fuel e b', next fuel b ≠ Done (inr e, b').
Proof.
  intros Hne Hneg. apply maxWeight_of_negative in Hneg. split; [done|].
  intros fuel e b' Hnext. apply next_Done in Hnext
    as [(? & _)|[(_ & Hmax & _)|(_ & _ & srv & [=] & _)]]; [done|].
  unfold maxWeight in Hmax. lia.
Qed.

(** * Instances of the further properties *)

Lemma gcd_nonneg_greatest_witness :
  0 <= gcd 12 18 /\ (gcd 12 18 | 12) /\ (gcd 12 18 | 18)
  /\ forall d, (d | 12) -> (d | 18) -> (d | gcd 12 18).
Proof. refine (gcd_nonneg_greatest 12 18 _ _); lia. Defined.

Lemma weightGcd_greatest_witness :
  let b := pool [("A", 4); ("B", 0); ("C", 6)]%string in
  0 <= weightGcd b
  /\ (forall s, s ∈ servers b -> (weightGcd b | weight s))
  /\ (forall d, (forall s, s ∈ servers b -> (d | weight s)) -> (d | weightGcd b)).
Proof.
  intros b. refine (weightGcd_greatest b _ _).
  - discriminate.
  - solve_nonneg.
Defined.

Lemma weightGcd_restarts_witness :
  weightGcd_of ([Server "A"%string (-3); Server "B"%string 2]
                ++ [Server "C"%string 10])
  = weightGcd_of [Server "C"%string 10].
Proof.
  refine (weightGcd_restarts [Server "A" (-3); Server "B" 2]%string
            [Server "C"%string 10] _).
  reflexivity.
Defined.

Lemma next_never_panics_witness :
  let b := pool [("A", -2); ("B", 4)]%string in
  next 5 b ≠ Panic
  /\ forall srv b', next 5 b = Done (inl srv, b') ->
       0 <= index b' < len (servers b)
       /\ server_at (servers b) (index b') = Some srv
       /\ currentWeight b' <= weight srv.
Proof.
  intros b. refine (next_never_panics 5 b _ _).
  - apply reachable_pool.
  - unfold len, int_max. simpl. lia.
Defined.

Lemma rotation_invariant_witness :
  let b := state [Server "A" 3; Server "B" 1]%string 3 0 in
  (index b = -1 /\ currentWeight b = 0)
  \/ (0 <= index b < len (servers b)
      /\ 0 < currentWeight b <= maxWeight b
      /\ exists srv, server_at (servers b) (index b) = Some srv
                     /\ currentWeight b <= weight srv).
Proof.
  intros b. refine (rotation_invariant b _ _ _).
  - eapply (reach_next 2 (pool [("A", 3); ("B", 1)]%string));
      [apply reachable_pool|vm_compute; reflexivity].
  - solve_representable.
  - solve_nonneg.
Defined.

Lemma equal_weights_round_robin_witness :
  let b : WRRLoadBalancer string string :=
    AddServer (AddServer (AddServer NewWRRLoadBalancer "A") "B") "C" in
  exists srv b',
    next 1 b = Done (inl srv, b')
    /\ index b' = (if index b + 1 <? len (servers b) then index b + 1 else 0)
    /\ server_at (servers b) (index b') = Some srv.
Proof.
  intros b. refine (equal_weights_round_robin 1 b _ _ _ _ _).
  - repeat apply reach_add. apply reach_new.
  - solve_representable.
  - discriminate.
  - lia.
  - repeat constructor.
Defined.

Lemma ServeTCP_forwards_witness :
  let b := pool [("A", 3); ("B", 0); ("C", 1)]%string in
  exists srv b',
    ServeTCP (Ctx:=unit) (length (servers b)) b "conn"%string
    = Done ([Forward (handler srv) "conn"%string], b')
    /\ srv ∈ servers b /\ 0 < weight srv.
Proof.
  intros b. refine (ServeTCP_forwards b "conn"%string _ _ _ _).
  - apply reachable_pool.
  - solve_representable.
  - solve_nonneg.
  - reflexivity.
Defined.

Lemma ServeTCP_drops_witness :
  let b := pool [("A", 0); ("B", -5)]%string in
  exists err,
    ServeTCP (Ctx:=unit) 0 b "conn"%string
    = Done ([LogError err "Error during load balancing"; Close "conn"%string], b)
    /\ err = (if decide (servers b = []) then EmptyPoolError
              else AllZeroWeightError).
Proof.
  intros b. refine (ServeTCP_drops 0 b "conn"%string _).
  right. reflexivity.
Defined.

Lemma SetStatus_stores_witness :
  let b : WRRLoadBalancer string string :=
    Balancer [] 0 (-1) (Some {["a"%string := 1%positive]}) ["parent"%string] in
  let cells : gmap loc bool := {[1%positive := true]} in
  let b' := set_status b (<["b"%string := fresh (dom cells)]>
                            {["a"%string := 1%positive]}) in
  let cells' := <[fresh (dom cells) := false]> cells in
  (exists m' l, status b' = Some m' /\ m' !! "b"%string = Some l
                /\ cells' !! l = Some false)
  /\ ((forall m name l, status b = Some m -> m !! name = Some l ->
         is_Some (cells !! l)) ->
      forall m' name l, status b' = Some m' -> m' !! name = Some l ->
        is_Some (cells' !! l)).
Proof.
  intros b cells b' cells'.
  refine (SetStatus_stores (Conn:=string) tt "b" false b b' cells cells'
            [LogDebug tt "Setting status of b to DOWN"] _).
  reflexivity.
Defined.


Lemma SetStatus_flip_propagates_witness :
  let b : WRRLoadBalancer string string :=
    Balancer [] 0 (-1) (Some {["a"%string := 1%positive]})
             ["parent"; "metrics"]%string in
  let cells : gmap loc bool := {[1%positive := true]} in
  exists tr,
    SetStatus (Handler:=string) (Conn:=string) tt "a" false b cells
    = Done (tr, b, <[1%positive := false]> cells)
    /\ updates tr = (fun fn => (fn, false)) <$> updaters b.
Proof.
  intros b cells.
  refine (SetStatus_flip_propagates tt "a" false b cells
            {["a"%string := 1%positive]} 1%positive _ _ _).
  - reflexivity.
  - apply lookup_singleton_eq.
  - apply lookup_singleton_eq.
Defined.

Lemma negative_weights_pass_the_guard_witness :
  let b := pool [("A", -1); ("B", -4611686018427387904)]%string in
  maxWeight b = -1
  /\ forall fuel e b', next fuel b ≠ Done (inr e, b').
Proof.
  intros b. refine (negative_weights_pass_the_guard b _ _).
  - discriminate.
  - repeat constructor.
Defined.
